(** * video_dedup: hash-based video frame deduplication

    A shallow embedding of [src/video_dedup.py] and the properties of its
    near-duplicate detector, frame selection and output decision.

    Conventions of the embedding.
    - Python [int] is [Z].
    - A perceptual hash is the 64-bit value that the 16-digit hex string
      [str(imagehash.phash(img))] denotes; the string and the value
      determine each other, so equality of hash strings (what the Python
      [set] and [dict] use) is equality of the values. [is_fingerprint]
      states the 64-bit range.
    - [hashes : Dict[int, str]] is an association list in insertion order
      (the order [hashes.items()] iterates in).
    - [processed_hashes] is a Python [set]: its iteration order is not
      the insertion order in general, so the detector takes the order as
      a parameter ([set_order]).
    - Code that can raise returns [result]. *)

From Stdlib Require Import ZArith QArith Lia Ascii String.
From Stdlib Require DecimalString DecimalZ DecimalPos.
From stdpp Require Import base list gmap sets strings.

Local Open Scope Z_scope.

(** ** Exceptions *)

Inductive exn : Type :=
| IndexError
| ZeroDivisionError
| KeyError.

Inductive result (A : Type) : Type :=
| Ok (a : A)
| Raise (e : exn).

Arguments Ok {A} a.
Arguments Raise {A} e.

Definition bind {A B : Type} (r : result A) (k : A -> result B) : result B :=
  match r with
  | Ok a => k a
  | Raise e => Raise e
  end.

Notation "x <-- r ;; k" := (bind r (fun x => k))
  (at level 100, r at next level, right associativity).

(** [a % b] on Python integers: floor modulus, [ZeroDivisionError] for a
    zero divisor. *)
Definition py_mod (a b : Z) : result Z :=
  if b =? 0 then Raise ZeroDivisionError else Ok (a mod b).

(** ** Fingerprints and Hamming distance *)

Definition hash_bits : nat := 64.

Definition is_fingerprint (h : Z) : Prop := 0 <= h < 2 ^ 64.

(** [numpy.count_nonzero(a.flatten() != b.flatten())] over the first [n]
    positions of the two bit arrays. *)
Fixpoint count_nonzero_diff (n : nat) (a b : Z) : Z :=
  match n with
  | O => 0
  | S k =>
      (if xorb (Z.testbit a (Z.of_nat k)) (Z.testbit b (Z.of_nat k))
       then 1 else 0)
      + count_nonzero_diff k a b
  end.

(** [hash_obj - processed_hash_obj] ([ImageHash.__sub__]). *)
Definition hamming (a b : Z) : Z := count_nonzero_diff hash_bits a b.

(** ** The Python set of kept hash strings *)

(** The set is kept as the list of its members in the order they were
    first added; [set.add] of a member already present changes nothing. *)
Definition set_add (x : Z) (s : list Z) : list Z :=
  if bool_decide (x ∈ s) then s else s ++ [x].

(** The order in which [for x in s] visits the members of a set: some
    enumeration of exactly its members. CPython visits the slots of the
    hash table, whose positions come from the (per-process randomised)
    string hashes, so the order is not tied to the insertion order. *)
Record set_order : Type := SetOrder {
  iter : list Z -> list Z;
  iter_perm : forall s, iter s ≡ₚ s
}.

Definition insertion_order : set_order :=
  {| iter := fun s => s; iter_perm := fun s => reflexivity s |}.

Definition reverse_order : set_order :=
  {| iter := @reverse Z; iter_perm := @reverse_Permutation Z |}.

(** ** The near-duplicate detector: [VideoDeduplicator.find_duplicates] *)

(** The local variables of [find_duplicates]; [debug_log] collects the
    [logger.debug] records
    (frame, [hash_to_frame[processed_hash_str]], difference). *)
Record detector : Type := Detector {
  duplicates : list Z;
  processed_hashes : list Z;
  hash_to_frame : gmap Z Z;
  debug_log : list (Z * Z * Z)
}.

Definition detector_init : detector :=
  {| duplicates := []; processed_hashes := []; hash_to_frame := ∅;
     debug_log := [] |}.

(** The inner loop [for processed_hash_str in processed_hashes: ...]
    with its [break]: the first visited member within the threshold,
    with the difference. *)
Fixpoint scan (threshold hash_obj : Z) (members : list Z) : option (Z * Z) :=
  match members with
  | [] => None
  | processed_hash_obj :: rest =>
      let difference := hamming hash_obj processed_hash_obj in
      if difference <=? threshold
      then Some (processed_hash_obj, difference)
      else scan threshold hash_obj rest
  end.

(** One iteration of [for frame_num, hash_str in hashes.items()]. *)
Definition detect_step (o : set_order) (threshold : Z) (st : detector)
    (item : Z * Z) : result detector :=
  let '(frame_num, hash_str) := item in
  match scan threshold hash_str (iter o (processed_hashes st)) with
  | Some (processed_hash_str, difference) =>
      match hash_to_frame st !! processed_hash_str with
      | Some matched =>
          Ok {| duplicates := duplicates st ++ [frame_num];
                processed_hashes := processed_hashes st;
                hash_to_frame := hash_to_frame st;
                debug_log := debug_log st ++ [(frame_num, matched, difference)] |}
      | None => Raise KeyError
      end
  | None =>
      Ok {| duplicates := duplicates st;
            processed_hashes := set_add hash_str (processed_hashes st);
            hash_to_frame := <[hash_str := frame_num]> (hash_to_frame st);
            debug_log := debug_log st |}
  end.

Fixpoint detect_loop (o : set_order) (threshold : Z) (hashes : list (Z * Z))
    (st : detector) : result detector :=
  match hashes with
  | [] => Ok st
  | item :: rest =>
      st' <-- detect_step o threshold st item ;;
      detect_loop o threshold rest st'
  end.

Definition find_duplicates_state (o : set_order) (threshold : Z)
    (hashes : list (Z * Z)) : result detector :=
  detect_loop o threshold hashes detector_init.

Definition find_duplicates (o : set_order) (threshold : Z)
    (hashes : list (Z * Z)) : result (list Z) :=
  st <-- find_duplicates_state o threshold hashes ;;
  Ok (duplicates st).

(** The decision of one iteration, read off the state: whether some kept
    member is within the threshold. *)
Definition near (threshold hash_obj : Z) (kept : list Z) : bool :=
  existsb (fun p => hamming hash_obj p <=? threshold) kept.

(** The duplicate list and the kept set across one iteration and across
    the loop, without the bookkeeping for the debug records. *)
Definition classify_step (threshold : Z) (c : list Z * list Z)
    (item : Z * Z) : list Z * list Z :=
  if near threshold item.2 c.2
  then (c.1 ++ [item.1], c.2)
  else (c.1, set_add item.2 c.2).

Definition classify (threshold : Z) (hashes : list (Z * Z))
    (c : list Z * list Z) : list Z * list Z :=
  fold_left (classify_step threshold) hashes c.

(** Loop invariant of [find_duplicates]: [hash_to_frame] has a key for
    exactly the members of [processed_hashes]. *)
Definition covered (st : detector) : Prop :=
  forall p, p ∈ processed_hashes st <-> is_Some (hash_to_frame st !! p).

(** What the bookkeeping of [find_duplicates] records, given the entries
    [seen] processed so far: there is one debug record per reported
    frame, in order; [hash_to_frame] sends a fingerprint to a frame that
    carries it; and a debug record names a reported frame, the owner of
    a kept member and their distance, which is within the threshold. *)
Definition bookkeeping (threshold : Z) (seen : list (Z * Z))
    (st : detector) : Prop :=
  (debug_log st).*1.*1 = duplicates st
  /\ (forall p f, hash_to_frame st !! p = Some f ->
        (f, p) ∈ seen /\ p ∈ processed_hashes st)
  /\ (forall n f d, (n, f, d) ∈ debug_log st ->
        exists h p, (n, h) ∈ seen /\ (f, p) ∈ seen
          /\ p ∈ processed_hashes st
          /\ d = hamming h p /\ d <= threshold).

(** The number of entries of [hashes] that [find_duplicates] does not
    report: [unique_frames = total_frames - len(duplicates)] of
    [deduplicate], taken over the hashed frames. *)
Definition unique_count (o : set_order) (threshold : Z)
    (hashes : list (Z * Z)) : result Z :=
  dups <-- find_duplicates o threshold hashes ;;
  Ok (Z.of_nat (length hashes) - Z.of_nat (length dups)).

(** ** The pipeline around the detector *)

(** [d[k] = v] on a dict kept in insertion order: an existing key keeps
    its position and gets the new value, a new key goes last. *)
Fixpoint dict_set (k v : Z) (d : list (Z * Z)) : list (Z * Z) :=
  match d with
  | [] => [(k, v)]
  | (k', v') :: rest =>
      if k =? k' then (k, v) :: rest else (k', v') :: dict_set k v rest
  end.

(** What [extract_frames] announces before the loop ([if interval:]). *)
Inductive extract_announcement : Type :=
| ExtractingAtIntervals (interval : Z)
| ExtractingAllFrames.

Definition extract_frames_announcement (interval : option Z)
    : extract_announcement :=
  match interval with
  | Some i => if i =? 0 then ExtractingAllFrames else ExtractingAtIntervals i
  | None => ExtractingAllFrames
  end.

(** What [deduplicate] logs at the end of a run, and the files the run
    wrote to the output directory. *)
Record report (Image : Type) : Type := Report {
  output_files : list (Z * Image);
  total_frames : Z;
  duplicate_frames : Z;
  unique_frames : Z;
  reduction_percent : Q
}.

Arguments Report {Image} _ _ _ _ _.
Arguments output_files {Image} _.
Arguments total_frames {Image} _.
Arguments duplicate_frames {Image} _.
Arguments unique_frames {Image} _.
Arguments reduction_percent {Image} _.

(** How a call of [main] ends: normally, with argparse's usage error
    (exit status 2), or in the [except Exception] handler (exit status 1). *)
Inductive outcome (Image : Type) : Type :=
| Completed (r : report Image)
| UsageError
| Failed (e : exn).

Arguments Completed {Image} r.
Arguments UsageError {Image}.
Arguments Failed {Image} e.

Section Pipeline.

(** A decoded raster image. A video is the list of the frames that
    [cap.read()] of a capture that opened returns before it first fails;
    an extracted frame is the pair of its index and the temporary file
    holding its image. The functions below follow the code from there:
    a capture that does not open ([ValueError], lines 39-40) and file
    operations that fail ([mkdtemp], [imwrite], [mkdir], [copy2],
    [rmtree]) are outside the model, so [Ok] means that the code
    returns provided these succeed, and statements about what a run
    returns take its completion as a hypothesis. *)
Context {Image : Type}.

(** The [while True] loop of [extract_frames]. *)
Fixpoint extract_loop (interval : option Z) (video : list Image)
    (frame_count : Z) (frames : list (Z * Image))
    : result (list (Z * Image)) :=
  match video with
  | [] => Ok frames
  | frame :: rest =>
      should_extract <--
        match interval with
        | None => Ok true
        | Some i => r <-- py_mod frame_count i ;; Ok (r =? 0)
        end ;;
      extract_loop interval rest (frame_count + 1)
        (if (should_extract : bool)
         then frames ++ [(frame_count, frame)] else frames)
  end.

Definition extract_frames (interval : option Z) (video : list Image)
    : result (list (Z * Image)) :=
  extract_loop interval video 0 [].

(** The body of the loop of [generate_hashes]; [phash] is [Image.open]
    followed by [imagehash.phash], [None] when either raises (the
    [except] branch only logs a warning). *)
Definition hash_frame (phash : Image -> option Z)
    (hashes : list (Z * Z)) (f : Z * Image) : list (Z * Z) :=
  let '(frame_num, frame_path) := f in
  match phash frame_path with
  | Some h => dict_set frame_num h hashes
  | None => hashes
  end.

Definition generate_hashes (phash : Image -> option Z)
    (frames : list (Z * Image)) : list (Z * Z) :=
  fold_left (hash_frame phash) frames [].

(** [save_unique_frames]: the copies made, in order ([shutil.copy2] of
    an extracted frame is taken to succeed); the clean-up reads
    [frames[0]]. *)
Definition save_unique_frames (frames : list (Z * Image))
    (dup_list : list Z) : result (list (Z * Image)) :=
  let duplicate_set : gset Z := list_to_set dup_list in
  let saved := filter (fun f : Z * Image => f.1 ∉ duplicate_set) frames in
  match frames with
  | [] => Raise IndexError
  | _ :: _ => Ok saved
  end.

Definition deduplicate (o : set_order) (threshold : Z)
    (phash : Image -> option Z) (interval : option Z)
    (video : list Image) : result (report Image) :=
  frames <-- extract_frames interval video ;;
  let hashes := generate_hashes phash frames in
  dups <-- find_duplicates o threshold hashes ;;
  saved <-- save_unique_frames frames dups ;;
  let total := Z.of_nat (length frames) in
  let n_dups := Z.of_nat (length dups) in
  Ok {| output_files := saved;
        total_frames := total;
        duplicate_frames := n_dups;
        unique_frames := total - n_dups;
        reduction_percent :=
          if 0 <? total
          then (inject_Z n_dups / inject_Z total * 100)%Q
          else 0%Q |}.

(** [main] after argument parsing: the threshold range check, then the
    run inside [try ... except Exception]. No check looks at
    [interval]. *)
Definition main (o : set_order) (phash : Image -> option Z)
    (video : list Image) (interval : option Z) (threshold : Z)
    : outcome Image :=
  if (threshold <? 0) || (64 <? threshold) then UsageError
  else match deduplicate o threshold phash interval video with
       | Ok r => Completed r
       | Raise e => Failed e
       end.

End Pipeline.

(** ** File names *)

(** Zero-filling of a digit string by [k] characters on the left. *)
Fixpoint zero_fill (k : nat) (digits : string) : string :=
  match k with
  | O => digits
  | S k' => String "0"%char (zero_fill k' digits)
  end.

(** The format specification [:06d]: the decimal digits, zero-filled to
    six characters, with the sign (which counts for the width) first. *)
Definition format_06d (n : Z) : string :=
  match Z.to_int n with
  | Decimal.Pos d =>
      let s := DecimalString.NilEmpty.string_of_uint d in
      zero_fill (6 - String.length s) s
  | Decimal.Neg d =>
      let s := DecimalString.NilEmpty.string_of_uint d in
      String "-"%char (zero_fill (5 - String.length s) s)
  end.

(** [f"frame_{frame_count:06d}.jpg"], the name of an extracted frame in
    the temporary directory. *)
Definition frame_file_name (frame_count : Z) : string :=
  "frame_" +:+ format_06d frame_count +:+ ".jpg".

(** [f"unique_frame_{frame_num:06d}.jpg"], the name of a kept frame in
    the output directory. *)
Definition unique_frame_file_name (frame_num : Z) : string :=
  "unique_frame_" +:+ format_06d frame_num +:+ ".jpg".

(** * Properties *)

(** ** Hamming distance *)

Section Hamming.

Lemma count_nonzero_diff_bounds (n : nat) (a b : Z) :
  0 <= count_nonzero_diff n a b <= Z.of_nat n.
Proof.
  induction n as [|k IH]; cbn [count_nonzero_diff]; [lia|].
  destruct (xorb _ _); lia.
Qed.

Lemma count_nonzero_diff_sym (n : nat) (a b : Z) :
  count_nonzero_diff n a b = count_nonzero_diff n b a.
Proof.
  induction n as [|k IH]; cbn [count_nonzero_diff]; [done|].
  by rewrite IH, xorb_comm.
Qed.

Lemma count_nonzero_diff_triangle (n : nat) (a b c : Z) :
  count_nonzero_diff n a c
  <= count_nonzero_diff n a b + count_nonzero_diff n b c.
Proof.
  induction n as [|k IH]; cbn [count_nonzero_diff]; [lia|].
  destruct (Z.testbit a (Z.of_nat k)), (Z.testbit b (Z.of_nat k)),
    (Z.testbit c (Z.of_nat k)); cbn [xorb]; lia.
Qed.

Lemma count_nonzero_diff_zero (n : nat) (a b : Z) :
  count_nonzero_diff n a b = 0 <->
  forall i, 0 <= i < Z.of_nat n -> Z.testbit a i = Z.testbit b i.
Proof.
  induction n as [|k IH]; cbn [count_nonzero_diff].
  - split; [intros _ i Hi; lia | done].
  - pose proof (count_nonzero_diff_bounds k a b) as Hb.
    split.
    + intros H i Hi.
      destruct (xorb _ _) eqn:Hx; [lia|].
      apply xorb_eq in Hx.
      destruct (decide (i = Z.of_nat k)) as [->|Hne]; [done|].
      apply IH; lia.
    + intros H.
      rewrite (H (Z.of_nat k)) by lia. rewrite xorb_nilpotent.
      cut (count_nonzero_diff k a b = 0); [lia|].
      apply IH. intros i Hi. apply H. lia.
Qed.

Lemma hamming_bounds (a b : Z) : 0 <= hamming a b <= 64.
Proof. apply (count_nonzero_diff_bounds hash_bits). Qed.

Lemma hamming_sym (a b : Z) : hamming a b = hamming b a.
Proof. apply count_nonzero_diff_sym. Qed.

Lemma hamming_triangle (a b c : Z) :
  hamming a c <= hamming a b + hamming b c.
Proof. apply count_nonzero_diff_triangle. Qed.

Lemma hamming_refl (a : Z) : hamming a a = 0.
Proof. by apply count_nonzero_diff_zero. Qed.

Lemma fingerprint_high_bits (h i : Z) :
  is_fingerprint h -> 64 <= i -> Z.testbit h i = false.
Proof.
  intros [Hlo Hhi] Hi.
  destruct (decide (h = 0)) as [->|Hne]; [apply Z.bits_0|].
  apply Z.bits_above_log2; [lia|].
  assert (Z.log2 h < 64); [|lia].
  apply Z.log2_lt_pow2; lia.
Qed.

Lemma hamming_zero_eq (a b : Z) :
  is_fingerprint a -> is_fingerprint b -> hamming a b = 0 -> a = b.
Proof.
  intros Ha Hb H. apply Z.bits_inj'. intros i Hi.
  destruct (decide (i < 64)) as [Hlt|Hge].
  - eapply count_nonzero_diff_zero; [exact H|]. unfold hash_bits. lia.
  - rewrite !fingerprint_high_bits by (done || lia). done.
Qed.

End Hamming.

(** ** The inner scan *)

Section Scan.

Lemma near_spec (t h : Z) (kept : list Z) :
  near t h kept = true <-> exists p, p ∈ kept /\ hamming h p <= t.
Proof.
  unfold near. rewrite existsb_exists. split.
  - intros (p & Hin & Hle). exists p. split; [by apply list_elem_of_In|lia].
  - intros (p & Hin & Hle). exists p. split; [by apply list_elem_of_In|lia].
Qed.

Lemma near_perm (t h : Z) (l l' : list Z) :
  l ≡ₚ l' -> near t h l = near t h l'.
Proof.
  intros Hp. apply eq_true_iff_eq. rewrite !near_spec.
  by setoid_rewrite Hp.
Qed.

Lemma scan_None (t h : Z) (l : list Z) :
  scan t h l = None <-> near t h l = false.
Proof.
  unfold near. induction l as [|p l IH]; cbn [scan existsb]; [done|].
  destruct (hamming h p <=? t); cbn [orb]; [by split | exact IH].
Qed.

(** The scan stops at the first visited member within the threshold. *)
Lemma scan_Some (t h : Z) (l : list Z) (p d : Z) :
  scan t h l = Some (p, d) <->
  exists l1 l2, l = l1 ++ p :: l2
    /\ Forall (fun q => t < hamming h q) l1
    /\ hamming h p <= t /\ d = hamming h p.
Proof.
  revert p d. induction l as [|q l IH]; intros p d; cbn [scan].
  - split; [discriminate|]. intros ([|??] & ? & ? & _); discriminate.
  - destruct (Z.leb_spec (hamming h q) t) as [Hle|Hgt].
    + split.
      * intros [= <- <-]. exists [], l. repeat split; [constructor|lia].
      * intros ([|q' l1] & l2 & Heq & Hall & Hp & ->); simplify_eq/=; [done|].
        apply Forall_cons in Hall as [Hq _]. lia.
    + rewrite IH. split.
      * intros (l1 & l2 & -> & Hall & Hp & ->).
        exists (q :: l1), l2. repeat split; [by constructor|lia].
      * intros ([|q' l1] & l2 & Heq & Hall & Hp & ->); simplify_eq/=; [lia|].
        apply Forall_cons in Hall as [_ Hall]. by exists l1, l2.
Qed.

Lemma scan_Some_elem (t h : Z) (l : list Z) (p d : Z) :
  scan t h l = Some (p, d) -> p ∈ l /\ hamming h p <= t /\ d = hamming h p.
Proof.
  rewrite scan_Some. intros (l1 & l2 & -> & _ & Hp & ->).
  repeat split; [|done]. set_solver.
Qed.

Lemma scan_near_Some (t h : Z) (l : list Z) :
  near t h l = true -> exists p d, scan t h l = Some (p, d).
Proof.
  intros Hn. destruct (scan t h l) as [[p d]|] eqn:Hs; [by exists p, d|].
  apply scan_None in Hs. congruence.
Qed.

End Scan.

(** ** The detector loop *)

Section DetectorLoop.

Context (o : set_order) (t : Z).

Lemma set_add_elem (x y : Z) (s : list Z) :
  x ∈ set_add y s <-> x = y \/ x ∈ s.
Proof.
  unfold set_add. case_bool_decide as Hy.
  - split; [by right|]. by intros [->|?].
  - rewrite elem_of_app, list_elem_of_singleton. tauto.
Qed.

Lemma set_add_prefix (y : Z) (s : list Z) : s `prefix_of` set_add y s.
Proof.
  unfold set_add. case_bool_decide; [done | by apply prefix_app_r].
Qed.

Lemma covered_init : covered detector_init.
Proof.
  intros p. cbn. rewrite lookup_empty. split; [by intros ?%elem_of_nil|].
  by intros [? ?].
Qed.

Lemma near_iter (h : Z) (kept : list Z) :
  near t h (iter o kept) = near t h kept.
Proof. apply near_perm, iter_perm. Qed.

(** One iteration never raises from a state that satisfies the
    invariant, and decides as [classify_step] does. *)
Lemma detect_step_spec (st : detector) (item : Z * Z) :
  covered st ->
  exists st', detect_step o t st item = Ok st'
    /\ covered st'
    /\ (duplicates st', processed_hashes st')
       = classify_step t (duplicates st, processed_hashes st) item.
Proof.
  intros Hcov. destruct item as [n h].
  unfold detect_step, classify_step. cbn [fst snd].
  destruct (scan t h (iter o (processed_hashes st))) as [[p d]|] eqn:Hs.
  - pose proof (scan_Some_elem _ _ _ _ _ Hs) as (Hin & Hle & ->).
    rewrite (iter_perm o) in Hin.
    destruct (proj1 (Hcov p) Hin) as [f Hf]. rewrite Hf.
    eexists. split; [done|]. split; [exact Hcov|].
    cbn [duplicates processed_hashes].
    assert (near t h (processed_hashes st) = true) as ->; [|done].
    apply near_spec. eauto.
  - apply scan_None in Hs. rewrite near_iter in Hs. rewrite Hs.
    eexists. split; [done|]. split; [|done].
    intros p. cbn [processed_hashes hash_to_frame].
    rewrite set_add_elem, lookup_insert_is_Some.
    rewrite (Hcov p). destruct (decide (h = p)); intuition congruence.
Qed.

Lemma detect_loop_app (l1 l2 : list (Z * Z)) (st : detector) :
  detect_loop o t (l1 ++ l2) st
  = (st' <-- detect_loop o t l1 st ;; detect_loop o t l2 st').
Proof.
  revert st. induction l1 as [|item l1 IH]; intros st; cbn; [done|].
  destruct (detect_step o t st item) as [st1|e]; cbn; [apply IH | done].
Qed.

Lemma detect_loop_spec (hashes : list (Z * Z)) (st : detector) :
  covered st ->
  exists st', detect_loop o t hashes st = Ok st'
    /\ covered st'
    /\ (duplicates st', processed_hashes st')
       = classify t hashes (duplicates st, processed_hashes st).
Proof.
  revert st. induction hashes as [|item hashes IH]; intros st Hcov.
  - exists st. split; [done|]. split; [done|]. reflexivity.
  - destruct (detect_step_spec st item Hcov) as (st1 & Hstep & Hcov1 & Hc1).
    destruct (IH st1 Hcov1) as (st' & Hloop & Hcov' & Hc').
    exists st'. cbn [detect_loop]. rewrite Hstep. cbn [bind].
    split; [done|]. split; [done|].
    rewrite Hc', Hc1. reflexivity.
Qed.

(** [find_duplicates] always returns: the lookup in [hash_to_frame]
    cannot fail. *)
Lemma find_duplicates_state_spec (hashes : list (Z * Z)) :
  exists st, find_duplicates_state o t hashes = Ok st
    /\ covered st
    /\ (duplicates st, processed_hashes st) = classify t hashes ([], []).
Proof. apply (detect_loop_spec hashes detector_init), covered_init. Qed.

Lemma find_duplicates_classify (hashes : list (Z * Z)) :
  find_duplicates o t hashes = Ok (classify t hashes ([], [])).1.
Proof.
  destruct (find_duplicates_state_spec hashes) as (st & Hst & _ & Hc).
  unfold find_duplicates. rewrite Hst. cbn. by rewrite <- Hc.
Qed.

End DetectorLoop.

(** ** Determinism of the classification *)

(** C5. For a fixed sequence of (frame, fingerprint) entries and a fixed
    threshold, the detector returns the same duplicate list, and keeps
    the same set, in every run: the only thing that can differ between
    two runs is the order in which the kept set is visited, and neither
    the duplicate list nor the kept set depends on it. *)
Theorem find_duplicates_deterministic (o1 o2 : set_order) (t : Z)
    (hashes : list (Z * Z)) :
  find_duplicates o1 t hashes = find_duplicates o2 t hashes
  /\ exists st1 st2,
       find_duplicates_state o1 t hashes = Ok st1
       /\ find_duplicates_state o2 t hashes = Ok st2
       /\ duplicates st1 = duplicates st2
       /\ processed_hashes st1 = processed_hashes st2.
Proof.
  split.
  - by rewrite !find_duplicates_classify.
  - destruct (find_duplicates_state_spec o1 t hashes) as (st1 & H1 & _ & Hc1).
    destruct (find_duplicates_state_spec o2 t hashes) as (st2 & H2 & _ & Hc2).
    exists st1, st2. rewrite <- Hc2 in Hc1. by simplify_eq.
Qed.

(** ** The kept set only grows *)

Section Growth.

Context (o : set_order) (t : Z).

Lemma detect_step_grows (st st' : detector) (item : Z * Z) :
  detect_step o t st item = Ok st' ->
  processed_hashes st `prefix_of` processed_hashes st'
  /\ duplicates st `prefix_of` duplicates st'
  /\ debug_log st `prefix_of` debug_log st'.
Proof.
  destruct item as [n h]. unfold detect_step.
  destruct (scan _ _ _) as [[p d]|].
  - destruct (hash_to_frame st !! p); [|discriminate].
    intros [= <-]. cbn. repeat split; (done || by apply prefix_app_r).
  - intros [= <-]. cbn [processed_hashes duplicates debug_log].
    repeat split; (done || apply set_add_prefix).
Qed.

Lemma detect_loop_grows (hashes : list (Z * Z)) (st st' : detector) :
  detect_loop o t hashes st = Ok st' ->
  processed_hashes st `prefix_of` processed_hashes st'
  /\ duplicates st `prefix_of` duplicates st'
  /\ debug_log st `prefix_of` debug_log st'.
Proof.
  revert st. induction hashes as [|item hashes IH]; intros st; cbn.
  - by intros [= <-].
  - destruct (detect_step o t st item) as [st1|e] eqn:Hstep; [|discriminate].
    cbn. intros Hloop.
    destruct (detect_step_grows _ _ _ Hstep) as (Hp & Hd & Hl).
    destruct (IH _ Hloop) as (Hp' & Hd' & Hl').
    repeat split; by etrans.
Qed.

End Growth.

(** C9. During one pass the kept set only grows: the state reached
    after any prefix of the input has its kept set (in insertion order)
    as a prefix of the kept set at the end, so no member is ever removed
    or moved; and the decisions taken (the duplicate list, with its debug
    records) are likewise only extended, never revised. *)
Theorem kept_set_only_grows (o : set_order) (t : Z)
    (pre post : list (Z * Z)) :
  exists st st',
    find_duplicates_state o t pre = Ok st
    /\ find_duplicates_state o t (pre ++ post) = Ok st'
    /\ processed_hashes st `prefix_of` processed_hashes st'
    /\ duplicates st `prefix_of` duplicates st'
    /\ debug_log st `prefix_of` debug_log st'.
Proof.
  destruct (find_duplicates_state_spec o t pre) as (st & Hst & Hcov & _).
  destruct (detect_loop_spec o t post st Hcov) as (st' & Hst' & _ & _).
  exists st, st'. split; [done|].
  assert (find_duplicates_state o t (pre ++ post) = Ok st') as Hall.
  { unfold find_duplicates_state in *. by rewrite detect_loop_app, Hst. }
  split; [done|]. by eapply detect_loop_grows.
Qed.

(** ** Threshold 64 *)

Section Threshold64.

Context (o : set_order).

Lemma iter_nil : iter o [] = [].
Proof. apply Permutation_nil_r, iter_perm. Qed.

Lemma iter_singleton (h : Z) : iter o [h] = [h].
Proof. apply Permutation_singleton_r, iter_perm. Qed.

Lemma detect_step_first (t n h : Z) :
  detect_step o t detector_init (n, h)
  = Ok {| duplicates := []; processed_hashes := [h];
          hash_to_frame := {[ h := n ]}; debug_log := [] |}.
Proof. unfold detect_step. cbn. by rewrite iter_nil. Qed.

Lemma detect_loop_64 (n h : Z) (rest : list (Z * Z)) (st : detector) :
  processed_hashes st = [h] ->
  hash_to_frame st !! h = Some n ->
  detect_loop o 64 rest st
  = Ok {| duplicates := duplicates st ++ rest.*1;
          processed_hashes := [h];
          hash_to_frame := hash_to_frame st;
          debug_log :=
            debug_log st
            ++ map (fun item => (item.1, n, hamming item.2 h)) rest |}.
Proof.
  revert st. induction rest as [|[m g] rest IH]; intros st Hp Hf.
  - cbn. rewrite !app_nil_r. destruct st; cbn in *. by subst.
  - cbn [detect_loop detect_step]. rewrite Hp, iter_singleton.
    cbn [scan]. pose proof (hamming_bounds g h) as Hb.
    destruct (Z.leb_spec (hamming g h) 64) as [_|]; [|lia].
    rewrite Hf. cbn [bind]. rewrite IH by done. cbn.
    by rewrite <- !app_assoc.
Qed.

End Threshold64.

Lemma find_duplicates_state_64 (o : set_order) (n h : Z)
    (rest : list (Z * Z)) :
  find_duplicates_state o 64 ((n, h) :: rest)
  = Ok {| duplicates := rest.*1; processed_hashes := [h];
          hash_to_frame := {[ h := n ]};
          debug_log := map (fun item => (item.1, n, hamming item.2 h)) rest |}.
Proof.
  unfold find_duplicates_state. cbn [detect_loop].
  rewrite detect_step_first. cbn [bind].
  rewrite (detect_loop_64 o n h); [done|done|]. apply lookup_singleton_eq.
Qed.

(** C7. With threshold 64, for every non-empty input the first frame is
    kept (it is not reported and its fingerprint is the only member of
    the kept set) and every later frame is reported as a duplicate, each
    one attributed to the first frame. *)
Theorem threshold_64_all_but_first_duplicate (o : set_order) (n h : Z)
    (rest : list (Z * Z)) :
  find_duplicates o 64 ((n, h) :: rest) = Ok rest.*1
  /\ exists st,
       find_duplicates_state o 64 ((n, h) :: rest) = Ok st
       /\ duplicates st = rest.*1
       /\ processed_hashes st = [h]
       /\ debug_log st = map (fun item => (item.1, n, hamming item.2 h)) rest.
Proof.
  pose proof (find_duplicates_state_64 o n h rest) as Hst.
  split.
  - unfold find_duplicates. by rewrite Hst.
  - eexists. by split.
Qed.

(** ** Threshold 0 *)

Section Threshold0.

Lemma classify_step_kept (t : Z) (c : list Z * list Z) (item : Z * Z)
    (p : Z) :
  p ∈ (classify_step t c item).2 -> p ∈ c.2 \/ p = item.2.
Proof.
  unfold classify_step. destruct (near t item.2 c.2); cbn [snd].
  - by left.
  - rewrite set_add_elem. tauto.
Qed.

(** Every member of the kept set is a fingerprint of the input. *)
Lemma classify_kept (t : Z) (hashes : list (Z * Z)) (c : list Z * list Z)
    (p : Z) :
  p ∈ (classify t hashes c).2 -> p ∈ c.2 \/ p ∈ hashes.*2.
Proof.
  revert c. induction hashes as [|item hashes IH]; intros c; cbn.
  - by left.
  - intros [Hp|Hp]%IH.
    + apply classify_step_kept in Hp as [Hp| ->]; [by left|].
      right. by left.
    + right. by right.
Qed.

Lemma near_0_identical (h : Z) (kept : list Z) :
  is_fingerprint h -> Forall is_fingerprint kept ->
  near 0 h kept = true <-> h ∈ kept.
Proof.
  intros Hh Hkept. rewrite near_spec. split.
  - intros (p & Hin & Hle).
    pose proof (hamming_bounds h p) as Hb.
    rewrite (hamming_zero_eq h p); [done|done| |lia].
    by eapply Forall_forall in Hkept.
  - intros Hin. exists h. split; [done|]. rewrite hamming_refl. lia.
Qed.

End Threshold0.

(** C8. With threshold 0 a frame is reported as a duplicate if and only
    if its fingerprint is identical to a member of the kept set at the
    time it is processed: if it is, the frame is appended to the
    duplicate list and the kept set is unchanged; if it is not, the
    duplicate list is unchanged and the fingerprint joins the kept set. *)
Theorem threshold_0_duplicate_iff_identical (o : set_order)
    (pre : list (Z * Z)) (n h : Z) (st : detector) :
  Forall is_fingerprint (h :: pre.*2) ->
  find_duplicates_state o 0 pre = Ok st ->
  exists st',
    find_duplicates_state o 0 (pre ++ [(n, h)]) = Ok st'
    /\ (h ∈ processed_hashes st ->
        duplicates st' = duplicates st ++ [n]
        /\ processed_hashes st' = processed_hashes st)
    /\ (h ∉ processed_hashes st ->
        duplicates st' = duplicates st
        /\ processed_hashes st' = processed_hashes st ++ [h]).
Proof.
  intros [Hh Hpre]%Forall_cons Hst.
  destruct (find_duplicates_state_spec o 0 pre) as (st0 & Hst0 & Hcov & Hc0).
  rewrite Hst in Hst0. injection Hst0 as <-.
  destruct (detect_step_spec o 0 st (n, h) Hcov) as (st' & Hstep & _ & Hc).
  exists st'. split.
  { unfold find_duplicates_state in *. rewrite detect_loop_app, Hst.
    cbn [bind detect_loop]. by rewrite Hstep. }
  assert (Forall is_fingerprint (processed_hashes st)) as Hkept.
  { apply Forall_forall. intros p Hp.
    assert (p ∈ (classify 0 pre ([], [])).2) as Hp' by by rewrite <- Hc0.
    apply classify_kept in Hp' as [Hp'|Hp']; [by apply elem_of_nil in Hp'|].
    by eapply Forall_forall in Hpre. }
  pose proof (near_0_identical h _ Hh Hkept) as Hnear.
  unfold classify_step in Hc. cbn [fst snd] in Hc.
  destruct (near 0 h (processed_hashes st)); injection Hc as Hd Hp.
  - split; [done|]. intros Hnot. exfalso. apply Hnot. by apply Hnear.
  - split.
    + intros Hin%Hnear. discriminate.
    + intros Hnot. split; [done|]. rewrite Hp. unfold set_add.
      by rewrite bool_decide_eq_false_2.
Qed.

Lemma threshold_0_duplicate_iff_identical_witness :
  exists st',
    find_duplicates_state insertion_order 0 ([(0, 5); (1, 9)] ++ [(2, 5)])
    = Ok st'
    /\ duplicates st' = [] ++ [2]
    /\ processed_hashes st' = [5; 9].
Proof.
  assert (Forall is_fingerprint (5 :: [(0, 5); (1, 9)].*2)) as Hfp.
  { cbn. repeat constructor; unfold is_fingerprint; lia. }
  destruct (threshold_0_duplicate_iff_identical insertion_order
              [(0, 5); (1, 9)] 2 5
              {| duplicates := []; processed_hashes := [5; 9];
                 hash_to_frame := <[9 := 1]> {[ 5 := 0 ]};
                 debug_log := [] |} Hfp eq_refl)
    as (st' & Hst' & Hdup & _).
  exists st'. split; [exact Hst'|]. apply Hdup. cbn. by left.
Defined.

(** ** Which member a duplicate is attributed to *)

(** A frame with a kept member within the threshold is reported, the
    kept set stays as it is, and the debug record names the frame of the
    first member within the threshold in the order the set is visited. *)
Lemma detect_step_duplicate (o : set_order) (t : Z) (st : detector)
    (n h : Z) :
  covered st ->
  (exists p, p ∈ processed_hashes st /\ hamming h p <= t) ->
  exists l1 p l2 f,
    iter o (processed_hashes st) = l1 ++ p :: l2
    /\ Forall (fun q => t < hamming h q) l1
    /\ hamming h p <= t
    /\ hash_to_frame st !! p = Some f
    /\ detect_step o t st (n, h)
       = Ok {| duplicates := duplicates st ++ [n];
               processed_hashes := processed_hashes st;
               hash_to_frame := hash_to_frame st;
               debug_log := debug_log st ++ [(n, f, hamming h p)] |}.
Proof.
  intros Hcov Hnear. apply near_spec in Hnear.
  rewrite <- (near_iter o) in Hnear.
  apply scan_near_Some in Hnear as (p & d & Hs).
  pose proof Hs as (l1 & l2 & Hsplit & Hall & Hle & ->)%scan_Some.
  assert (p ∈ processed_hashes st) as Hin.
  { rewrite <- (iter_perm o), Hsplit. rewrite elem_of_app. right. by left. }
  destruct (proj1 (Hcov p) Hin) as [f Hf].
  exists l1, p, l2, f. repeat split; try done.
  unfold detect_step. by rewrite Hs, Hf.
Qed.

(** C4 (as the code has it). A frame whose fingerprint is within the
    threshold of some member of the kept set is reported as a duplicate
    and its fingerprint is not inserted; the member it is attributed to
    is the first one within the threshold in the order in which the set
    is visited, which is the insertion order only when the set happens
    to be visited in that order. *)
Theorem duplicate_of_first_visited_member (o : set_order) (t : Z)
    (pre : list (Z * Z)) (n h : Z) (st : detector) :
  find_duplicates_state o t pre = Ok st ->
  (exists p, p ∈ processed_hashes st /\ hamming h p <= t) ->
  exists l1 p l2 f,
    iter o (processed_hashes st) = l1 ++ p :: l2
    /\ Forall (fun q => t < hamming h q) l1
    /\ hamming h p <= t
    /\ hash_to_frame st !! p = Some f
    /\ find_duplicates_state o t (pre ++ [(n, h)])
       = Ok {| duplicates := duplicates st ++ [n];
               processed_hashes := processed_hashes st;
               hash_to_frame := hash_to_frame st;
               debug_log := debug_log st ++ [(n, f, hamming h p)] |}.
Proof.
  intros Hst Hnear.
  destruct (find_duplicates_state_spec o t pre) as (st0 & Hst0 & Hcov & _).
  rewrite Hst in Hst0. injection Hst0 as <-.
  destruct (detect_step_duplicate o t st n h Hcov Hnear)
    as (l1 & p & l2 & f & Hsplit & Hall & Hle & Hf & Hstep).
  exists l1, p, l2, f. repeat split; try done.
  unfold find_duplicates_state in *. rewrite detect_loop_app, Hst.
  cbn [bind detect_loop]. by rewrite Hstep.
Qed.

Lemma duplicate_of_first_visited_member_witness :
  exists l1 p l2 f,
    iter reverse_order [0; 1023] = l1 ++ p :: l2
    /\ Forall (fun q => 5 < hamming 31 q) l1
    /\ hamming 31 p <= 5
    /\ (<[1023 := 1]> {[ 0 := 0 ]} : gmap Z Z) !! p = Some f
    /\ find_duplicates_state reverse_order 5
         ([(0, 0); (1, 1023)] ++ [(2, 31)])
       = Ok {| duplicates := [] ++ [2];
               processed_hashes := [0; 1023];
               hash_to_frame := <[1023 := 1]> {[ 0 := 0 ]};
               debug_log := [] ++ [(2, f, hamming 31 p)] |}.
Proof.
  assert (exists p, p ∈ [0; 1023] /\ hamming 31 p <= 5) as Hnear.
  { exists 0. split; [by left | vm_compute; discriminate]. }
  exact (duplicate_of_first_visited_member reverse_order 5
           [(0, 0); (1, 1023)] 2 31
           {| duplicates := []; processed_hashes := [0; 1023];
              hash_to_frame := <[1023 := 1]> {[ 0 := 0 ]};
              debug_log := [] |}
           eq_refl Hnear).
Defined.

(** The claim as the specification words it fails when the set is not
    visited in insertion order: with the kept set [0; 1023] (frames 0
    and 1) and threshold 5, fingerprint 31 is within the threshold of
    both members; the first member in insertion order is the one of
    frame 0, and the debug record attributes frame 2 to frame 1. *)
Lemma duplicate_not_of_first_inserted_member :
  exists st st',
    find_duplicates_state reverse_order 5 [(0, 0); (1, 1023)] = Ok st
    /\ processed_hashes st = [0; 1023]
    /\ scan 5 31 (processed_hashes st) = Some (0, 5)
    /\ hash_to_frame st !! 0 = Some 0
    /\ find_duplicates_state reverse_order 5 [(0, 0); (1, 1023); (2, 31)]
       = Ok st'
    /\ duplicates st' = [2]
    /\ debug_log st' = [(2, 1, 5)].
Proof.
  do 2 eexists. split; [reflexivity|]. split; [reflexivity|].
  split; [reflexivity|]. split; [reflexivity|].
  split; [reflexivity|]. split; reflexivity.
Qed.

(** ** The three-frame scenario *)

(** Hamming distance obeys the triangle inequality, so distances 3 and
    3 leave at most 6 for the third. *)
Lemma scenario_distances_bound (A B C : Z) :
  hamming A B = 3 -> hamming B C = 3 -> hamming A C <= 6.
Proof. intros HAB HBC. pose proof (hamming_triangle A B C). lia. Qed.

(** The scenario as the specification gives it does not exist: no run of
    the detector is on three fingerprints at distances 3, 3 and 10. *)
Lemma scenario_distances_impossible :
  ~ exists (o : set_order) (nA nB nC A B C : Z),
      hamming A B = 3 /\ hamming B C = 3 /\ hamming A C = 10
      /\ find_duplicates o 5 [(nA, A); (nB, B); (nC, C)] = Ok [nB].
Proof.
  intros (o & nA & nB & nC & A & B & C & HAB & HBC & HAC & _).
  pose proof (scenario_distances_bound A B C HAB HBC). lia.
Qed.

(** C6 (with a distance that can occur). For frames [A, B, C] with
    distance(A,B) = 3, distance(B,C) = 3, distance(A,C) = 6 and
    threshold 5: A is kept, B is reported as a duplicate (of A), and C is
    kept, because A is the only member of the kept set when C is
    compared and distance(A,C) exceeds the threshold, although C is
    within the threshold of B. *)
Theorem scenario_non_transitive (o : set_order) (nA nB nC A B C : Z) :
  hamming A B = 3 -> hamming B C = 3 -> hamming A C = 6 ->
  find_duplicates o 5 [(nA, A); (nB, B); (nC, C)] = Ok [nB]
  /\ find_duplicates_state o 5 [(nA, A); (nB, B)]
     = Ok {| duplicates := [nB]; processed_hashes := [A];
             hash_to_frame := {[ A := nA ]};
             debug_log := [(nB, nA, 3)] |}
  /\ find_duplicates_state o 5 [(nA, A); (nB, B); (nC, C)]
     = Ok {| duplicates := [nB]; processed_hashes := [A; C];
             hash_to_frame := <[ C := nC ]> {[ A := nA ]};
             debug_log := [(nB, nA, 3)] |}.
Proof.
  intros HAB HBC HAC.
  assert (hamming B A = 3) as HBA by by rewrite hamming_sym.
  assert (hamming C A = 6) as HCA by by rewrite hamming_sym.
  assert (C ∉ [A]) as HCnotA.
  { intros ->%list_elem_of_singleton. rewrite hamming_refl in HAC. lia. }
  assert (find_duplicates_state o 5 [(nA, A); (nB, B)]
          = Ok {| duplicates := [nB]; processed_hashes := [A];
                  hash_to_frame := {[ A := nA ]};
                  debug_log := [(nB, nA, 3)] |}) as H2.
  { unfold find_duplicates_state. cbn [detect_loop].
    rewrite detect_step_first. cbn [bind detect_step processed_hashes].
    rewrite iter_singleton. cbn [scan]. rewrite HBA. cbn [Z.leb Z.compare
      Pos.compare Pos.compare_cont].
    cbn [hash_to_frame]. by rewrite lookup_singleton_eq. }
  assert (find_duplicates_state o 5 [(nA, A); (nB, B); (nC, C)]
          = Ok {| duplicates := [nB]; processed_hashes := [A; C];
                  hash_to_frame := <[ C := nC ]> {[ A := nA ]};
                  debug_log := [(nB, nA, 3)] |}) as H3.
  { unfold find_duplicates_state in *.
    change [(nA, A); (nB, B); (nC, C)] with ([(nA, A); (nB, B)] ++ [(nC, C)]).
    rewrite detect_loop_app, H2.
    cbn [bind detect_loop detect_step processed_hashes].
    rewrite iter_singleton. cbn [scan]. rewrite HCA. cbn [Z.leb Z.compare
      Pos.compare Pos.compare_cont].
    unfold set_add. by rewrite bool_decide_eq_false_2. }
  split; [|by split].
  unfold find_duplicates. by rewrite H3.
Qed.

Lemma scenario_non_transitive_witness :
  find_duplicates reverse_order 5 [(0, 0); (1, 7); (2, 63)] = Ok [1]
  /\ find_duplicates_state reverse_order 5 [(0, 0); (1, 7)]
     = Ok {| duplicates := [1]; processed_hashes := [0];
             hash_to_frame := {[ 0 := 0 ]};
             debug_log := [(1, 0, 3)] |}
  /\ find_duplicates_state reverse_order 5 [(0, 0); (1, 7); (2, 63)]
     = Ok {| duplicates := [1]; processed_hashes := [0; 63];
             hash_to_frame := <[ 63 := 2 ]> {[ 0 := 0 ]};
             debug_log := [(1, 0, 3)] |}.
Proof.
  apply (scenario_non_transitive reverse_order 0 1 2 0 7 63);
    vm_compute; reflexivity.
Defined.

(** ** The number of unique frames across thresholds *)

Section UniqueCount.

Lemma hamming_zero_mod (a b : Z) :
  hamming a b = 0 <-> a mod 2 ^ 64 = b mod 2 ^ 64.
Proof.
  unfold hamming. rewrite count_nonzero_diff_zero. unfold hash_bits.
  split.
  - intros H. apply Z.bits_inj'. intros i Hi.
    destruct (decide (i < 64)) as [Hlt|Hge].
    + rewrite !Z.mod_pow2_bits_low by lia. apply H. lia.
    + rewrite !Z.mod_pow2_bits_high by lia. done.
  - intros H i Hi.
    rewrite <- (Z.mod_pow2_bits_low a 64 i) by lia.
    rewrite <- (Z.mod_pow2_bits_low b 64 i) by lia.
    by rewrite H.
Qed.

Lemma near_false_not_elem (t h : Z) (kept : list Z) :
  0 <= t -> near t h kept = false -> h ∉ kept.
Proof.
  intros Ht Hn Hin.
  assert (near t h kept = true); [|congruence].
  apply near_spec. exists h. split; [done|]. rewrite hamming_refl. lia.
Qed.

Lemma near_false_mod_not_elem (t h : Z) (kept : list Z) :
  0 <= t -> near t h kept = false ->
  h mod 2 ^ 64 ∉ (fun p => p mod 2 ^ 64) <$> kept.
Proof.
  intros Ht Hn (p & Heq & Hin)%list_elem_of_fmap.
  assert (near t h kept = true); [|congruence].
  apply near_spec. exists p. split; [done|].
  apply hamming_zero_mod in Heq. lia.
Qed.

Lemma classify_cons (t : Z) (item : Z * Z) (hashes : list (Z * Z))
    (c : list Z * list Z) :
  classify t (item :: hashes) c = classify t hashes (classify_step t c item).
Proof. done. Qed.

(** From threshold 0 up, every frame either joins the duplicate list
    or adds a new member to the kept set. *)
Lemma classify_lengths (t : Z) (hashes : list (Z * Z))
    (c : list Z * list Z) :
  0 <= t ->
  (length (classify t hashes c).1 + length (classify t hashes c).2
   = length c.1 + length c.2 + length hashes)%nat.
Proof.
  intros Ht. revert c.
  induction hashes as [|item hashes IH]; intros c.
  - cbn. lia.
  - rewrite classify_cons, IH. unfold classify_step.
    destruct (near t item.2 c.2) eqn:Hn; cbn [fst snd length].
    + rewrite length_app. cbn. lia.
    + apply (near_false_not_elem t) in Hn; [|done].
      unfold set_add. rewrite bool_decide_eq_false_2 by done.
      rewrite length_app. cbn. lia.
Qed.

Lemma classify_kept_prefix (t : Z) (hashes : list (Z * Z))
    (c : list Z * list Z) :
  c.2 `prefix_of` (classify t hashes c).2.
Proof.
  revert c. induction hashes as [|item hashes IH]; intros c; [done|].
  rewrite classify_cons. etrans; [|apply IH].
  unfold classify_step. destruct (near _ _ _); [done|].
  apply set_add_prefix.
Qed.

(** The kept members are pairwise distinct as 64-bit values. *)
Lemma classify_kept_NoDup (t : Z) (hashes : list (Z * Z))
    (c : list Z * list Z) :
  0 <= t ->
  NoDup ((fun p => p mod 2 ^ 64) <$> c.2) ->
  NoDup ((fun p => p mod 2 ^ 64) <$> (classify t hashes c).2).
Proof.
  intros Ht. revert c.
  induction hashes as [|item hashes IH]; intros c Hc; [done|].
  rewrite classify_cons. apply IH. unfold classify_step.
  destruct (near t item.2 c.2) eqn:Hn; cbn [snd]; [done|].
  pose proof (near_false_mod_not_elem t _ _ Ht Hn) as Hnot.
  apply (near_false_not_elem t) in Hn; [|done].
  unfold set_add. rewrite bool_decide_eq_false_2 by done.
  rewrite fmap_app. apply NoDup_app. split; [done|].
  split; [|apply NoDup_singleton].
  intros x Hx ->%list_elem_of_singleton. done.
Qed.

(** With threshold 0 every fingerprint seen has its 64-bit value in
    the kept set. *)
Lemma classify_0_covers (hashes : list (Z * Z)) (c : list Z * list Z)
    (h : Z) :
  h ∈ hashes.*2 ->
  h mod 2 ^ 64 ∈ (fun p => p mod 2 ^ 64) <$> (classify 0 hashes c).2.
Proof.
  revert c. induction hashes as [|item hashes IH]; intros c Hin.
  - by apply elem_of_nil in Hin.
  - rewrite classify_cons. cbn in Hin.
    apply elem_of_cons in Hin as [->|Hin]; [|by apply IH].
    assert (item.2 mod 2 ^ 64
            ∈ (fun p => p mod 2 ^ 64) <$> (classify_step 0 c item).2)
      as Hstep.
    { unfold classify_step.
      destruct (near 0 item.2 c.2) eqn:Hn; cbn [snd].
      - apply near_spec in Hn as (p & Hp & Hle).
        pose proof (hamming_bounds item.2 p).
        apply list_elem_of_fmap. exists p. split; [|done].
        apply hamming_zero_mod. lia.
      - apply list_elem_of_fmap. exists item.2. split; [done|].
        apply set_add_elem. by left. }
    destruct (classify_kept_prefix 0 hashes (classify_step 0 c item))
      as [k Hk].
    rewrite Hk, fmap_app, elem_of_app. by left.
Qed.

Lemma classify_kept_le_0 (t : Z) (hashes : list (Z * Z)) :
  0 <= t ->
  (length (classify t hashes ([], [])).2
   <= length (classify 0 hashes ([], [])).2)%nat.
Proof.
  intros Ht.
  rewrite <- (length_fmap (fun p => p mod 2 ^ 64)
                (classify t hashes ([], [])).2).
  rewrite <- (length_fmap (fun p => p mod 2 ^ 64)
                (classify 0 hashes ([], [])).2).
  apply submseteq_length, NoDup_submseteq.
  - apply classify_kept_NoDup; [done|]. cbn. constructor.
  - intros x (p & -> & Hp)%list_elem_of_fmap.
    apply classify_kept in Hp as [Hp|Hp]; [by apply elem_of_nil in Hp|].
    by apply classify_0_covers.
Qed.

Lemma unique_count_kept (o : set_order) (t : Z) (hashes : list (Z * Z)) :
  0 <= t ->
  unique_count o t hashes
  = Ok (Z.of_nat (length (classify t hashes ([], [])).2)).
Proof.
  intros Ht. unfold unique_count. rewrite find_duplicates_classify.
  cbn [bind]. f_equal.
  pose proof (classify_lengths t hashes ([], []) Ht) as Hl.
  cbn [fst snd length] in Hl. lia.
Qed.

End UniqueCount.

Lemma classify_64_kept (n h : Z) (rest : list (Z * Z)) :
  (classify 64 ((n, h) :: rest) ([], [])).2 = [h].
Proof.
  destruct (find_duplicates_state_spec insertion_order 64 ((n, h) :: rest))
    as (st & Hst & _ & Hc).
  rewrite find_duplicates_state_64 in Hst. injection Hst as <-.
  by rewrite <- Hc.
Qed.

Lemma classify_kept_nonempty (t n h : Z) (rest : list (Z * Z)) :
  (1 <= length (classify t ((n, h) :: rest) ([], [])).2)%nat.
Proof.
  rewrite classify_cons.
  pose proof (classify_kept_prefix t rest (classify_step t ([], []) (n, h)))
    as Hpre.
  apply prefix_length in Hpre. revert Hpre.
  unfold classify_step, near, set_add. cbn [existsb fst snd].
  rewrite bool_decide_eq_false_2 by apply not_elem_of_nil.
  cbn [length app]. lia.
Qed.

(** The specification's monotonicity fails: with fingerprints
    A = 7168 (bits 10-12), B = 0, C = 6 (bits 1-2), D = 24 (bits 3-4),
    threshold 2 keeps A and B (C and D are within 2 of B), while
    threshold 3 drops B (within 3 of A) and then keeps A, C and D. *)
Lemma unique_count_not_monotone :
  unique_count insertion_order 2 [(0, 7168); (1, 0); (2, 6); (3, 24)] = Ok 2
  /\ unique_count insertion_order 3 [(0, 7168); (1, 0); (2, 6); (3, 24)]
     = Ok 3.
Proof. split; reflexivity. Qed.

(** C3 (what holds of the code). For every input sequence and every
    threshold t from 0 to 64, the number of frames classified unique at
    t lies between the number at threshold 64 and the number at
    threshold 0; between two intermediate thresholds the count can go
    either way. *)
Theorem unique_count_between_extremes (o : set_order) (t : Z)
    (hashes : list (Z * Z)) :
  0 <= t <= 64 ->
  exists u0 ut u64,
    unique_count o 0 hashes = Ok u0
    /\ unique_count o t hashes = Ok ut
    /\ unique_count o 64 hashes = Ok u64
    /\ u64 <= ut <= u0.
Proof.
  intros [Ht0 Ht64].
  rewrite !unique_count_kept by lia.
  do 3 eexists. split; [done|]. split; [done|]. split; [done|].
  split.
  - destruct hashes as [|[n h] rest]; [cbn; lia|].
    rewrite classify_64_kept.
    pose proof (classify_kept_nonempty t n h rest). cbn [length]. lia.
  - pose proof (classify_kept_le_0 t hashes Ht0). lia.
Qed.

Lemma unique_count_between_extremes_witness :
  exists u0 ut u64,
    unique_count insertion_order 0 [(0, 7168); (1, 0); (2, 6); (3, 24)]
    = Ok u0
    /\ unique_count insertion_order 3 [(0, 7168); (1, 0); (2, 6); (3, 24)]
       = Ok ut
    /\ unique_count insertion_order 64 [(0, 7168); (1, 0); (2, 6); (3, 24)]
       = Ok u64
    /\ u64 <= ut <= u0.
Proof.
  apply (unique_count_between_extremes insertion_order 3). lia.
Defined.

(** ** Frame extraction *)

Section Extraction.

Context {Image : Type}.

(** Frame numbers are handed out in increasing order, so no two
    extracted frames share one. *)
Lemma extract_loop_NoDup (interval : option Z) (video : list Image)
    (frame_count : Z) (frames frames' : list (Z * Image)) :
  extract_loop interval video frame_count frames = Ok frames' ->
  Forall (fun n => n < frame_count) frames.*1 ->
  NoDup frames.*1 ->
  NoDup frames'.*1.
Proof.
  revert frame_count frames.
  induction video as [|frame rest IH]; intros k frames; cbn [extract_loop].
  - by intros [= <-].
  - destruct (match interval with
              | Some i => r <-- py_mod k i;; Ok (r =? 0)
              | None => Ok true
              end) as [[|]|e]; cbn [bind]; [| |discriminate].
    + intros Hloop Hlt Hnd. apply (IH _ _ Hloop).
      * rewrite fmap_app, Forall_app. split.
        -- eapply Forall_impl; [exact Hlt|]. cbn. lia.
        -- repeat constructor. cbn. lia.
      * rewrite fmap_app. apply NoDup_app. split; [done|].
        split; [|apply NoDup_singleton].
        intros x Hx ->%list_elem_of_singleton.
        eapply Forall_forall in Hlt; [|exact Hx]. cbn in Hlt. lia.
    + intros Hloop Hlt Hnd. apply (IH _ _ Hloop); [|done].
      eapply Forall_impl; [exact Hlt|]. cbn. lia.
Qed.

Lemma extract_frames_NoDup (interval : option Z) (video : list Image)
    (frames : list (Z * Image)) :
  extract_frames interval video = Ok frames -> NoDup frames.*1.
Proof.
  intros H. eapply extract_loop_NoDup; [exact H|constructor|constructor].
Qed.

(** Without an interval every frame is selected, numbered from the
    current count. *)
Lemma extract_loop_None (video : list Image) (frame_count : Z)
    (frames : list (Z * Image)) :
  extract_loop None video frame_count frames
  = Ok (frames ++ zip (seqZ frame_count (Z.of_nat (length video))) video).
Proof.
  revert frame_count frames.
  induction video as [|frame rest IH]; intros k frames.
  - cbn. by rewrite app_nil_r.
  - cbn [extract_loop bind]. rewrite IH.
    cbn [length]. rewrite Nat2Z.inj_succ, (seqZ_cons k) by lia.
    cbn [zip zip_with]. rewrite <- app_assoc. cbn [app].
    by replace (Z.pred (Z.succ (Z.of_nat (length rest))))
      with (Z.of_nat (length rest)) by lia.
Qed.

Lemma extract_frames_None (video : list Image) :
  extract_frames None video
  = Ok (zip (seqZ 0 (Z.of_nat (length video))) video).
Proof. apply extract_loop_None. Qed.

(** A negative interval passes every check and selects the frames its
    absolute value selects. *)
Lemma extract_loop_negative (i : Z) (video : list Image) (frame_count : Z)
    (frames : list (Z * Image)) :
  extract_loop (Some (- i)) video frame_count frames
  = extract_loop (Some i) video frame_count frames.
Proof.
  revert frame_count frames.
  induction video as [|frame rest IH]; intros k frames; [done|].
  cbn [extract_loop]. unfold py_mod.
  destruct (Z.eqb_spec i 0) as [->|Hi]; [done|].
  destruct (Z.eqb_spec (- i) 0) as [|_]; [lia|]. cbn [bind].
  assert ((k mod - i =? 0) = (k mod i =? 0)) as ->; [|apply IH].
  apply eq_true_iff_eq. rewrite !Z.eqb_eq.
  rewrite !Z.mod_divide by lia. split; apply Z.divide_opp_l.
Qed.

End Extraction.

(** C10. The announcement treats interval 0 as unset ("extracting all
    frames"), but the selection test divides by it: on any video with at
    least one frame [extract_frames] raises [ZeroDivisionError], whereas
    without an interval it returns every frame; [main] has no check on
    the interval, so the run ends in its exception handler. *)
Theorem extract_frames_interval_0 {Image : Type} (o : set_order)
    (phash : Image -> option Z) (frame : Image) (rest : list Image) :
  extract_frames_announcement (Some 0) = extract_frames_announcement None
  /\ extract_frames (Some 0) (frame :: rest) = Raise ZeroDivisionError
  /\ extract_frames None (frame :: rest)
     = Ok (zip (seqZ 0 (Z.of_nat (length (frame :: rest)))) (frame :: rest))
  /\ main o phash (frame :: rest) (Some 0) 5 = Failed ZeroDivisionError.
Proof.
  split; [done|]. split; [done|]. split; [apply extract_frames_None|done].
Qed.

(** ** The run on an empty video *)

(** C2. On a video with no decodable frame the run does not complete:
    nothing is extracted, hashed or reported as duplicate, and the
    clean-up in [save_unique_frames] reads [frames[0]] of the empty
    list, so [deduplicate] raises [IndexError] before the statistics
    (with their guard for zero frames) are computed, and [main] ends in
    its exception handler. *)
Theorem deduplicate_empty_video {Image : Type} (o : set_order) (t : Z)
    (phash : Image -> option Z) (interval : option Z) :
  extract_frames interval (@nil Image) = Ok []
  /\ find_duplicates o t (generate_hashes phash []) = Ok []
  /\ save_unique_frames (@nil (Z * Image)) [] = Raise IndexError
  /\ deduplicate o t phash interval [] = Raise IndexError
  /\ main o phash [] interval 5 = Failed IndexError.
Proof. repeat split. Qed.

(** ** Frames whose hashing fails *)

Section HashFailure.

Context {Image : Type} (phash : Image -> option Z).

Lemma dict_set_keys (k v : Z) (d : list (Z * Z)) (x : Z) :
  x ∈ (dict_set k v d).*1 <-> x = k \/ x ∈ d.*1.
Proof.
  induction d as [|[k' v'] d IH]; cbn [dict_set].
  - cbn. rewrite list_elem_of_singleton, elem_of_nil. tauto.
  - destruct (Z.eqb_spec k k') as [->|Hne]; cbn [fmap list_fmap fst].
    + rewrite !elem_of_cons. tauto.
    + rewrite !elem_of_cons, IH. tauto.
Qed.

(** Every key of [hashes] is the number of a frame that was hashed. *)
Lemma fold_hash_frame_keys (frames : list (Z * Image))
    (acc : list (Z * Z)) (x : Z) :
  x ∈ (fold_left (hash_frame phash) frames acc).*1 ->
  x ∈ acc.*1
  \/ exists img, (x, img) ∈ frames /\ is_Some (phash img).
Proof.
  revert acc. induction frames as [|[n img] frames IH]; intros acc; cbn.
  - by left.
  - intros [Hx|(img' & Hin & Hs)]%IH.
    + destruct (phash img) as [h|] eqn:Hh; [|by left].
      apply dict_set_keys in Hx as [->|Hx]; [|by left].
      right. exists img. split; [by left|]. by rewrite Hh.
    + right. exists img'. split; [by right|done].
Qed.

(** A frame that fails leaves [hashes] as if it had not been there. *)
Lemma generate_hashes_skip (pre post : list (Z * Image)) (n : Z)
    (img : Image) :
  phash img = None ->
  generate_hashes phash (pre ++ (n, img) :: post)
  = generate_hashes phash (pre ++ post).
Proof.
  intros Hfail. unfold generate_hashes. rewrite !fold_left_app.
  cbn [fold_left hash_frame]. by rewrite Hfail.
Qed.

Lemma NoDup_fst_functional (frames : list (Z * Image)) (n : Z)
    (img img' : Image) :
  NoDup frames.*1 -> (n, img) ∈ frames -> (n, img') ∈ frames -> img = img'.
Proof.
  induction frames as [|[m i] frames IH]; cbn [fmap list_fmap fst].
  - by intros _ ?%elem_of_nil.
  - intros [Hm Hnd]%NoDup_cons [[= -> ->]|H1]%elem_of_cons
      [[= ->]|H2]%elem_of_cons; try done.
    + destruct Hm. apply list_elem_of_fmap. by exists (m, img').
    + simplify_eq. destruct Hm. apply list_elem_of_fmap. by exists (m, img).
    + by apply IH.
Qed.

Lemma generate_hashes_failed_key (frames : list (Z * Image)) (n : Z)
    (img : Image) :
  NoDup frames.*1 -> (n, img) ∈ frames -> phash img = None ->
  n ∉ (generate_hashes phash frames).*1.
Proof.
  intros Hnd Hin Hfail Hkey. unfold generate_hashes in Hkey.
  apply fold_hash_frame_keys in Hkey as [Hkey|(img' & Hin' & Hs)].
  - by apply elem_of_nil in Hkey.
  - rewrite <- (NoDup_fst_functional frames n img img') in Hs by done.
    rewrite Hfail in Hs. by destruct Hs.
Qed.

End HashFailure.

Section ReportedFrames.

Context (o : set_order) (t : Z).

(** The frames the detector mentions, as duplicates or as owners of a
    kept member, are frames of its input. *)
Lemma detect_step_frames (st st' : detector) (item : Z * Z) (f : Z) :
  detect_step o t st item = Ok st' ->
  f ∈ duplicates st' \/ (exists p, hash_to_frame st' !! p = Some f) ->
  (f ∈ duplicates st \/ (exists p, hash_to_frame st !! p = Some f))
  \/ f = item.1.
Proof.
  destruct item as [n h]. unfold detect_step.
  destruct (scan _ _ _) as [[p d]|].
  - destruct (hash_to_frame st !! p); [|discriminate].
    intros [= <-]. cbn [duplicates hash_to_frame fst].
    rewrite elem_of_app, list_elem_of_singleton. tauto.
  - intros [= <-]. cbn [duplicates hash_to_frame fst].
    intros [Hd|(p & Hp)]; [by left; left|].
    apply lookup_insert_Some in Hp as [[_ <-]|[_ Hp]]; [by right|].
    left. right. by exists p.
Qed.

Lemma detect_loop_frames (hashes : list (Z * Z)) (st st' : detector)
    (f : Z) :
  detect_loop o t hashes st = Ok st' ->
  f ∈ duplicates st' \/ (exists p, hash_to_frame st' !! p = Some f) ->
  (f ∈ duplicates st \/ (exists p, hash_to_frame st !! p = Some f))
  \/ f ∈ hashes.*1.
Proof.
  revert st. induction hashes as [|item hashes IH]; intros st; cbn.
  - intros [= <-]. by left.
  - destruct (detect_step o t st item) as [st1|e] eqn:Hstep; [|discriminate].
    cbn. intros Hloop Hf.
    destruct (IH _ Hloop Hf) as [Hf1|Hin]; [|right; by right].
    destruct (detect_step_frames _ _ _ _ Hstep Hf1) as [Hf0| ->];
      [by left|right; by left].
Qed.

Lemma find_duplicates_state_frames (hashes : list (Z * Z))
    (st : detector) (f : Z) :
  find_duplicates_state o t hashes = Ok st ->
  f ∉ hashes.*1 ->
  (f ∉ duplicates st) /\ forall p, hash_to_frame st !! p <> Some f.
Proof.
  intros Hst Hnot.
  assert (~ (f ∈ duplicates st
             \/ exists p, hash_to_frame st !! p = Some f)) as Hno.
  { intros Hf. destruct (detect_loop_frames _ _ _ _ Hst Hf)
      as [[Hd|(p & Hp)]|Hin]; [| |done].
    - by apply elem_of_nil in Hd.
    - cbn in Hp. by rewrite lookup_empty in Hp. }
  split; [tauto|]. intros p Hp. apply Hno. right. by exists p.
Qed.

End ReportedFrames.

Lemma save_unique_frames_elem {Image : Type} (frames : list (Z * Image))
    (dup_list : list Z) (f : Z * Image) :
  f ∈ frames -> f.1 ∉ dup_list ->
  exists saved, save_unique_frames frames dup_list = Ok saved /\ f ∈ saved.
Proof.
  intros Hin Hnot. unfold save_unique_frames.
  destruct frames as [|f0 frames]; [by apply elem_of_nil in Hin|].
  eexists. split; [done|].
  apply list_elem_of_filter. split; [|done].
  by rewrite elem_of_list_to_set.
Qed.

(** The claim as the specification words it fails: of the frames
    0, 7, 1 (a frame is its own fingerprint here, and 7 cannot be
    hashed), frame 1 (image 7) is never fingerprinted, and it is copied
    to the output directory and counted as unique. *)
Lemma failed_frame_is_persisted :
  exists r,
    deduplicate insertion_order 5
      (fun img : Z => if img =? 7 then None else Some img) None [0; 7; 1]
    = Ok r
    /\ output_files r = [(0, 0); (1, 7)]
    /\ total_frames r = 3
    /\ duplicate_frames r = 1
    /\ unique_frames r = 2.
Proof. eexists. split; [reflexivity|]. by repeat split. Qed.

(** C1 (as the code has it). A frame whose hashing fails gets no entry
    in [hashes], and the later frames are hashed as if it had not been
    there; the detector runs on the entries obtained and neither reports
    the frame as a duplicate nor keeps a member on its behalf; and,
    whenever the run completes, the frame is among the files copied to
    the output directory, because it is not in the duplicate list. *)
Theorem failed_frame_outcome {Image : Type} (o : set_order) (t : Z)
    (phash : Image -> option Z) (interval : option Z) (video : list Image)
    (frames : list (Z * Image)) (n : Z) (img : Image) (r : report Image) :
  extract_frames interval video = Ok frames ->
  (n, img) ∈ frames ->
  phash img = None ->
  deduplicate o t phash interval video = Ok r ->
  (n ∉ (generate_hashes phash frames).*1)
  /\ (forall pre post, frames = pre ++ (n, img) :: post ->
      generate_hashes phash frames = generate_hashes phash (pre ++ post))
  /\ (exists st,
       find_duplicates_state o t (generate_hashes phash frames) = Ok st
       /\ (n ∉ duplicates st)
       /\ (forall p, hash_to_frame st !! p <> Some n))
  /\ (n, img) ∈ output_files r.
Proof.
  intros Hext Hin Hfail Hrun.
  pose proof (extract_frames_NoDup _ _ _ Hext) as Hnd.
  pose proof (generate_hashes_failed_key phash frames n img Hnd Hin Hfail)
    as Hkey.
  split; [done|]. split.
  { intros pre post ->. by apply generate_hashes_skip. }
  destruct (find_duplicates_state_spec o t (generate_hashes phash frames))
    as (st & Hst & _ & _).
  destruct (find_duplicates_state_frames o t _ st n Hst Hkey) as [Hd Hk].
  destruct (save_unique_frames_elem frames (duplicates st) (n, img) Hin Hd)
    as (saved & Hsave & Hsaved).
  split; [by exists st|].
  unfold deduplicate, find_duplicates in Hrun.
  rewrite Hext in Hrun. cbn [bind] in Hrun.
  rewrite Hst in Hrun. cbn [bind] in Hrun.
  rewrite Hsave in Hrun. cbn [bind] in Hrun.
  injection Hrun as <-. exact Hsaved.
Qed.

Lemma failed_frame_outcome_witness :
  (1 ∉ (generate_hashes (fun img : Z => if img =? 7 then None else Some img)
          [(0, 0); (1, 7); (2, 1)]).*1)
  /\ (forall pre post, [(0, 0); (1, 7); (2, 1)] = pre ++ (1, 7) :: post ->
      generate_hashes (fun img : Z => if img =? 7 then None else Some img)
        [(0, 0); (1, 7); (2, 1)]
      = generate_hashes (fun img : Z => if img =? 7 then None else Some img)
          (pre ++ post))
  /\ (exists st,
       find_duplicates_state insertion_order 5
         (generate_hashes (fun img : Z => if img =? 7 then None else Some img)
            [(0, 0); (1, 7); (2, 1)]) = Ok st
       /\ (1 ∉ duplicates st)
       /\ (forall p, hash_to_frame st !! p <> Some 1))
  /\ (1, 7) ∈ [(0, 0); (1, 7)].
Proof.
  apply (failed_frame_outcome insertion_order 5
           (fun img : Z => if img =? 7 then None else Some img) None
           [0; 7; 1] [(0, 0); (1, 7); (2, 1)] 1 7
           {| output_files := [(0, 0); (1, 7)]; total_frames := 3;
              duplicate_frames := 1; unique_frames := 2;
              reduction_percent := (inject_Z 1 / inject_Z 3 * 100)%Q |}).
  - reflexivity.
  - right. left.
  - reflexivity.
  - reflexivity.
Defined.

(** * Further properties of the pipeline *)

(** ** Frame selection *)

Section Selection.

Context {Image : Type}.

(** The video with its frames numbered from [frame_count]. *)
Lemma extract_loop_stride (i : Z) (video : list Image) (frame_count : Z)
    (frames : list (Z * Image)) :
  i <> 0 ->
  extract_loop (Some i) video frame_count frames
  = Ok (frames
        ++ filter (fun f : Z * Image => f.1 mod i = 0)
             (zip (seqZ frame_count (Z.of_nat (length video))) video)).
Proof.
  intros Hi. revert frame_count frames.
  induction video as [|frame rest IH]; intros k frames.
  - cbn. by rewrite app_nil_r.
  - cbn [extract_loop]. unfold py_mod.
    destruct (Z.eqb_spec i 0) as [|_]; [done|]. cbn [bind].
    rewrite IH. cbn [length]. rewrite Nat2Z.inj_succ, (seqZ_cons k) by lia.
    replace (Z.pred (Z.succ (Z.of_nat (length rest))))
      with (Z.of_nat (length rest)) by lia.
    replace (Z.succ k) with (k + 1) by lia.
    cbn [zip zip_with]. rewrite filter_cons. cbn [fst].
    destruct (Z.eqb_spec (k mod i) 0) as [Hk|Hk].
    + rewrite decide_True by done. by rewrite <- app_assoc.
    + by rewrite decide_False by done.
Qed.

Lemma filter_mod_1 (l : list (Z * Image)) :
  filter (fun f : Z * Image => f.1 mod 1 = 0) l = l.
Proof.
  induction l as [|f l IH]; [done|].
  rewrite filter_cons, decide_True by apply Z.mod_1_r. by rewrite IH.
Qed.

End Selection.

(** X1. With a non-zero interval [extract_frames] returns exactly the
    frames whose index is a multiple of the interval, each paired with
    its index in the video, in order. *)
Theorem extract_frames_stride {Image : Type} (i : Z) (video : list Image) :
  i <> 0 ->
  extract_frames (Some i) video
  = Ok (filter (fun f : Z * Image => f.1 mod i = 0)
          (zip (seqZ 0 (Z.of_nat (length video))) video)).
Proof. intros Hi. apply (extract_loop_stride i video 0 [] Hi). Qed.

Lemma extract_frames_stride_witness :
  extract_frames (Some 2) [10; 11; 12; 13; 14]
  = Ok (filter (fun f : Z * Z => f.1 mod 2 = 0)
          (zip (seqZ 0 (Z.of_nat (length [10; 11; 12; 13; 14])))
             [10; 11; 12; 13; 14])).
Proof. apply (extract_frames_stride 2 [10; 11; 12; 13; 14]). lia. Defined.

(** X2. Without an interval every frame of the video is extracted,
    numbered 0, 1, 2, ... in decoding order, and interval 1 extracts the
    same frames. *)
Theorem extract_frames_all {Image : Type} (video : list Image) :
  extract_frames None video
  = Ok (zip (seqZ 0 (Z.of_nat (length video))) video)
  /\ extract_frames (Some 1) video = extract_frames None video.
Proof.
  split; [apply extract_frames_None|].
  rewrite extract_frames_None.
  unfold extract_frames. rewrite extract_loop_stride by done.
  by rewrite filter_mod_1.
Qed.

(** X3. A negative interval is accepted and selects the frames that its
    absolute value selects (Python's [%] with a negative divisor is zero
    for the same dividends). *)
Theorem extract_frames_negative_interval {Image : Type} (i : Z)
    (video : list Image) :
  extract_frames (Some (- i)) video = extract_frames (Some i) video.
Proof. apply extract_loop_negative. Qed.

Lemma extract_frames_Ok_head {Image : Type} (interval : option Z)
    (frame : Image) (rest : list Image) (frames : list (Z * Image)) :
  extract_frames interval (frame :: rest) = Ok frames ->
  interval <> Some 0 /\ exists tl, frames = (0, frame) :: tl.
Proof.
  intros Hext.
  assert (interval <> Some 0) as Hi by (intros ->; discriminate Hext).
  split; [done|]. destruct interval as [i|].
  - assert (i <> 0) as Hi' by congruence.
    unfold extract_frames in Hext.
    rewrite extract_loop_stride in Hext by done. cbn [app] in Hext.
    cbn [length] in Hext.
    rewrite Nat2Z.inj_succ, (seqZ_cons 0) in Hext by lia.
    cbn [zip zip_with] in Hext.
    rewrite filter_cons_True in Hext by apply Z.mod_0_l, Hi'.
    injection Hext as <-. by eexists.
  - rewrite extract_frames_None in Hext. cbn [length] in Hext.
    rewrite Nat2Z.inj_succ, (seqZ_cons 0) in Hext by lia.
    cbn [zip zip_with] in Hext. injection Hext as <-. by eexists.
Qed.

(** X4. Whenever [extract_frames] returns for a video with at least one
    frame, the interval is not 0 and the list starts with frame 0
    holding the video's first image: the first frame is selected under
    every interval, and with interval 0 the function cannot return. *)
Theorem extract_frames_returns_first {Image : Type} (interval : option Z)
    (frame : Image) (rest : list Image) (frames : list (Z * Image)) :
  extract_frames interval (frame :: rest) = Ok frames ->
  interval <> Some 0 /\ exists tl, frames = (0, frame) :: tl.
Proof. apply extract_frames_Ok_head. Qed.

Lemma extract_frames_returns_first_witness :
  Some (-3) <> Some 0 /\ exists tl, [(0, 10); (3, 13)] = (0, 10) :: tl.
Proof.
  apply (extract_frames_returns_first (Some (-3)) 10 [11; 12; 13; 14]).
  reflexivity.
Defined.

Lemma extract_frames_sublist {Image : Type} (interval : option Z)
    (video : list Image) (frames : list (Z * Image)) :
  extract_frames interval video = Ok frames ->
  frames `sublist_of` zip (seqZ 0 (Z.of_nat (length video))) video.
Proof.
  destruct interval as [i|].
  - destruct (decide (i = 0)) as [->|Hi].
    + destruct video as [|frame rest]; [|discriminate].
      intros [= <-]. done.
    + unfold extract_frames. rewrite extract_loop_stride by done.
      intros [= <-]. apply sublist_filter.
  - rewrite extract_frames_None. by intros [= <-].
Qed.

(** X5. The extracted frames are a subsequence of the video's frames
    paired with their indices: frame numbers are the positions in the
    video, they increase, and each number comes with the image decoded at
    that position. *)
Theorem extract_frames_subsequence {Image : Type} (interval : option Z)
    (video : list Image) (frames : list (Z * Image)) :
  extract_frames interval video = Ok frames ->
  frames `sublist_of` zip (seqZ 0 (Z.of_nat (length video))) video.
Proof. apply extract_frames_sublist. Qed.

Lemma extract_frames_subsequence_witness :
  [(0, 10); (3, 13)]
  `sublist_of` zip (seqZ 0 (Z.of_nat (length [10; 11; 12; 13; 14])))
                 [10; 11; 12; 13; 14].
Proof.
  apply (extract_frames_subsequence (Some 3) [10; 11; 12; 13; 14]).
  reflexivity.
Defined.

(** ** The table of hashes *)

Section HashTable.

Context {Image : Type} (phash : Image -> option Z).

Lemma dict_set_NoDup (k v : Z) (d : list (Z * Z)) :
  NoDup d.*1 -> NoDup (dict_set k v d).*1.
Proof.
  induction d as [|[k' v'] d IH]; cbn [dict_set].
  - intros _. apply NoDup_singleton.
  - cbn [fmap list_fmap fst]. intros [Hk' Hd]%NoDup_cons.
    destruct (Z.eqb_spec k k') as [->|Hne]; cbn [fmap list_fmap fst].
    + by apply NoDup_cons.
    + apply NoDup_cons. split; [|by apply IH].
      rewrite dict_set_keys. intros [?|?]; [congruence|done].
Qed.

Lemma dict_set_fresh (k v : Z) (d : list (Z * Z)) :
  k ∉ d.*1 -> dict_set k v d = d ++ [(k, v)].
Proof.
  induction d as [|[k' v'] d IH]; cbn [dict_set]; [done|].
  cbn [fmap list_fmap fst]. intros [Hne Hd]%not_elem_of_cons.
  destruct (Z.eqb_spec k k') as [|_]; [done|]. by rewrite IH.
Qed.

Lemma fold_hash_frame_NoDup (frames : list (Z * Image))
    (acc : list (Z * Z)) :
  NoDup acc.*1 -> NoDup (fold_left (hash_frame phash) frames acc).*1.
Proof.
  revert acc. induction frames as [|[n img] frames IH]; intros acc Hacc;
    [done|].
  cbn [fold_left hash_frame]. apply IH.
  destruct (phash img); [by apply dict_set_NoDup | done].
Qed.

Lemma fold_hash_frame_distinct (frames : list (Z * Image))
    (acc : list (Z * Z)) :
  NoDup (acc.*1 ++ frames.*1) ->
  fold_left (hash_frame phash) frames acc
  = acc ++ omap (fun f : Z * Image => (fun h => (f.1, h)) <$> phash f.2)
             frames.
Proof.
  revert acc. induction frames as [|[n img] frames IH]; intros acc Hnd.
  - cbn. by rewrite app_nil_r.
  - cbn [fold_left hash_frame omap list_omap fst snd].
    cbn [fmap list_fmap fst] in Hnd.
    apply NoDup_app in Hnd as (Hacc & Hdisj & [Hn Hfr]%NoDup_cons).
    assert (n ∉ acc.*1) as Hfresh.
    { intros Hin. apply (Hdisj n Hin). by left. }
    destruct (phash img) as [h|]; cbn [fmap option_fmap option_map].
    + rewrite dict_set_fresh by done. rewrite IH.
      * by rewrite <- app_assoc.
      * rewrite fmap_app. cbn [fmap list_fmap fst].
        rewrite <- app_assoc. cbn [app].
        apply NoDup_app. split; [done|]. split; [|by apply NoDup_cons].
        intros x Hx. apply (Hdisj x Hx).
    + apply IH. apply NoDup_app. split; [done|]. split; [|done].
      intros x Hx Hx'. apply (Hdisj x Hx). by right.
Qed.

End HashTable.

(** X6. The table returned by [generate_hashes] has each frame number as
    a key at most once, whatever the frame list (a repeated number
    overwrites its entry). *)
Theorem generate_hashes_keys_NoDup {Image : Type}
    (phash : Image -> option Z) (frames : list (Z * Image)) :
  NoDup (generate_hashes phash frames).*1.
Proof. apply fold_hash_frame_NoDup. constructor. Qed.

(** X7. For frames with distinct numbers, [generate_hashes] returns, in
    frame order, one entry (number, hash) for each frame whose hashing
    succeeds and nothing for the frames whose hashing fails. *)
Theorem generate_hashes_distinct {Image : Type}
    (phash : Image -> option Z) (frames : list (Z * Image)) :
  NoDup frames.*1 ->
  generate_hashes phash frames
  = omap (fun f : Z * Image => (fun h => (f.1, h)) <$> phash f.2) frames.
Proof.
  intros Hnd. unfold generate_hashes.
  by rewrite fold_hash_frame_distinct.
Qed.

Lemma generate_hashes_distinct_witness :
  generate_hashes (fun img : Z => if img =? 7 then None else Some img)
    [(0, 0); (1, 7); (2, 1)]
  = omap (fun f : Z * Z =>
            (fun h => (f.1, h)) <$> (if f.2 =? 7 then None else Some f.2))
      [(0, 0); (1, 7); (2, 1)].
Proof.
  apply (generate_hashes_distinct
           (fun img : Z => if img =? 7 then None else Some img)
           [(0, 0); (1, 7); (2, 1)]).
  apply (bool_decide_unpack _). vm_compute. exact I.
Defined.

(** ** The detector's result as a whole *)

Section DetectorResult.

Context (t : Z).

Lemma classify_first (n h : Z) (rest : list (Z * Z)) :
  classify t ((n, h) :: rest) ([], []) = classify t rest ([], [h]).
Proof.
  rewrite classify_cons. unfold classify_step, near, set_add.
  cbn [existsb fst snd]. by rewrite bool_decide_eq_false_2 by apply not_elem_of_nil.
Qed.

Lemma classify_dups_sublist (hashes : list (Z * Z)) (c : list Z * list Z) :
  exists d, (classify t hashes c).1 = c.1 ++ d /\ d `sublist_of` hashes.*1.
Proof.
  revert c. induction hashes as [|[n h] hashes IH]; intros c.
  - exists []. split; [by rewrite app_nil_r | done].
  - rewrite classify_cons.
    destruct (IH (classify_step t c (n, h))) as (d & Hd & Hsub).
    rewrite Hd. unfold classify_step. cbn [fst snd fmap list_fmap].
    destruct (near t h c.2); cbn [fst].
    + exists (n :: d). rewrite <- app_assoc. split; [done|].
      by apply sublist_skip.
    + exists d. split; [done|]. by apply sublist_cons.
Qed.

Lemma set_add_NoDup (x : Z) (s : list Z) : NoDup s -> NoDup (set_add x s).
Proof.
  intros Hs. unfold set_add. case_bool_decide as Hx; [done|].
  apply NoDup_app. split; [done|]. split; [|apply NoDup_singleton].
  by intros y Hy ->%list_elem_of_singleton.
Qed.

Lemma classify_kept_NoDup_members (hashes : list (Z * Z))
    (c : list Z * list Z) :
  NoDup c.2 -> NoDup (classify t hashes c).2.
Proof.
  revert c. induction hashes as [|item hashes IH]; intros c Hc; [done|].
  rewrite classify_cons. apply IH. unfold classify_step.
  destruct (near _ _ _); cbn [snd]; [done|]. by apply set_add_NoDup.
Qed.

Lemma near_false_all (h : Z) (kept : list Z) (p : Z) :
  near t h kept = false -> p ∈ kept -> t < hamming h p.
Proof.
  intros Hn Hp. destruct (Z.lt_ge_cases t (hamming h p)) as [|Hle]; [done|].
  assert (near t h kept = true); [|congruence].
  apply near_spec. eauto.
Qed.

Lemma set_add_separated (h : Z) (kept : list Z) :
  near t h kept = false ->
  (forall i j p q, (i < j)%nat -> kept !! i = Some p -> kept !! j = Some q ->
                   t < hamming q p) ->
  forall i j p q, (i < j)%nat ->
    set_add h kept !! i = Some p -> set_add h kept !! j = Some q ->
    t < hamming q p.
Proof.
  intros Hn Hsep. unfold set_add. case_bool_decide as Hin; [done|].
  intros i j p q Hij Hi Hj.
  apply lookup_app_Some in Hj as [Hj|[Hlen Hj]].
  - apply lookup_lt_Some in Hj as Hjlt.
    rewrite lookup_app_l in Hi by lia. exact (Hsep i j p q Hij Hi Hj).
  - apply list_lookup_singleton_Some in Hj as [Hj0 <-].
    rewrite lookup_app_l in Hi by lia.
    apply (near_false_all h kept p Hn). by eapply list_elem_of_lookup_2.
Qed.

Lemma classify_separated (hashes : list (Z * Z)) (c : list Z * list Z) :
  (forall i j p q, (i < j)%nat -> c.2 !! i = Some p -> c.2 !! j = Some q ->
                   t < hamming q p) ->
  forall i j p q, (i < j)%nat ->
    (classify t hashes c).2 !! i = Some p ->
    (classify t hashes c).2 !! j = Some q ->
    t < hamming q p.
Proof.
  revert c. induction hashes as [|item hashes IH]; intros c Hc; [done|].
  rewrite classify_cons. apply IH. unfold classify_step.
  destruct (near t item.2 c.2) eqn:Hn; cbn [snd]; [done|].
  by apply set_add_separated.
Qed.

Lemma classify_covers (hashes : list (Z * Z)) (c : list Z * list Z)
    (n h : Z) :
  0 <= t -> (n, h) ∈ hashes ->
  exists p, p ∈ (classify t hashes c).2 /\ hamming h p <= t.
Proof.
  intros Ht. revert c.
  induction hashes as [|item hashes IH]; intros c Hin.
  - by apply elem_of_nil in Hin.
  - rewrite classify_cons.
    apply elem_of_cons in Hin as [<-|Hin]; [|by apply IH].
    destruct (classify_kept_prefix t hashes (classify_step t c (n, h)))
      as [k Hk].
    rewrite Hk. unfold classify_step. cbn [fst snd].
    destruct (near t h c.2) eqn:Hn; cbn [snd].
    + apply near_spec in Hn as (p & Hp & Hle).
      exists p. split; [|done]. rewrite elem_of_app. by left.
    + exists h. split; [|rewrite hamming_refl; lia].
      rewrite elem_of_app, set_add_elem. left. by left.
Qed.

Lemma classify_negative (hashes : list (Z * Z)) (c : list Z * list Z) :
  t < 0 -> (classify t hashes c).1 = c.1.
Proof.
  intros Ht. revert c.
  induction hashes as [|item hashes IH]; intros c; [done|].
  rewrite classify_cons, IH. unfold classify_step.
  destruct (near t item.2 c.2) eqn:Hn; [|done].
  apply near_spec in Hn as (p & _ & Hle).
  pose proof (hamming_bounds item.2 p). lia.
Qed.

Lemma classify_far (hashes : list (Z * Z)) (c : list Z * list Z) :
  (forall p item, p ∈ c.2 -> item ∈ hashes -> t < hamming item.2 p) ->
  (forall l1 a l2 b l3, hashes = l1 ++ a :: l2 ++ b :: l3 ->
                        t < hamming b.2 a.2) ->
  (classify t hashes c).1 = c.1.
Proof.
  revert c. induction hashes as [|item hashes IH]; intros c Hc Hfar; [done|].
  rewrite classify_cons.
  assert (near t item.2 c.2 = false) as Hn.
  { apply not_true_is_false. intros (p & Hp & Hle)%near_spec.
    assert (item ∈ item :: hashes) as Hitem by by left.
    specialize (Hc p item Hp Hitem). lia. }
  rewrite IH.
  - unfold classify_step. by rewrite Hn.
  - unfold classify_step. rewrite Hn. cbn [snd].
    intros p item' [->|Hp]%set_add_elem Hin.
    + apply list_elem_of_split in Hin as (l2 & l3 & ->).
      by apply (Hfar [] item l2 item' l3).
    + apply Hc; [done|by right].
  - intros l1 a l2 b l3 ->. by apply (Hfar (item :: l1) a l2 b l3).
Qed.

Lemma classify_near_first (h : Z) (rest : list (Z * Z)) (d : list Z) :
  Forall (fun item => hamming item.2 h <= t) rest ->
  classify t rest (d, [h]) = (d ++ rest.*1, [h]).
Proof.
  revert d. induction rest as [|[m g] rest IH]; intros d Hall.
  - cbn. by rewrite app_nil_r.
  - apply Forall_cons in Hall as [Hg Hall]. rewrite classify_cons.
    unfold classify_step, near. cbn [existsb fst snd] in *.
    destruct (Z.leb_spec (hamming g h) t) as [_|]; [|lia].
    cbn [orb]. rewrite IH by done. cbn [fmap list_fmap fst].
    by rewrite <- app_assoc.
Qed.

End DetectorResult.

(** X8. [find_duplicates] reports a subsequence of the frame numbers of
    its input, in input order, and never the first entry: with an empty
    kept set the first frame is always kept. *)
Theorem find_duplicates_subsequence (o : set_order) (t : Z)
    (hashes : list (Z * Z)) :
  exists dups,
    find_duplicates o t hashes = Ok dups
    /\ dups `sublist_of` (tail hashes).*1.
Proof.
  rewrite find_duplicates_classify. eexists. split; [done|].
  destruct hashes as [|[n h] rest]; [done|].
  rewrite classify_first. cbn [tail].
  destruct (classify_dups_sublist t rest ([], [h])) as (d & -> & Hsub).
  done.
Qed.

(** X9. The kept set at the end of a pass consists of fingerprints of
    the input, holds none twice, and any two of its members are farther
    apart than the threshold. *)
Theorem kept_set_separated (o : set_order) (t : Z) (hashes : list (Z * Z)) :
  exists st,
    find_duplicates_state o t hashes = Ok st
    /\ NoDup (processed_hashes st)
    /\ (forall p, p ∈ processed_hashes st -> p ∈ hashes.*2)
    /\ forall i j p q, (i < j)%nat ->
         processed_hashes st !! i = Some p ->
         processed_hashes st !! j = Some q ->
         t < hamming q p.
Proof.
  destruct (find_duplicates_state_spec o t hashes) as (st & Hst & _ & Hc).
  exists st. split; [done|].
  assert (processed_hashes st = (classify t hashes ([], [])).2) as ->
    by by rewrite <- Hc.
  split; [apply classify_kept_NoDup_members; constructor|].
  split.
  - intros p [Hp|Hp]%classify_kept; [by apply elem_of_nil in Hp|done].
  - apply classify_separated. intros i j p q _ Hi. by destruct i.
Qed.

(** X10. From threshold 0 up, every frame of the input has a kept
    member within the threshold of its fingerprint at the end of the
    pass (itself, if it was kept). *)
Theorem kept_set_covers (o : set_order) (t : Z) (hashes : list (Z * Z)) :
  0 <= t ->
  exists st,
    find_duplicates_state o t hashes = Ok st
    /\ forall n h, (n, h) ∈ hashes ->
         exists p, p ∈ processed_hashes st /\ hamming h p <= t.
Proof.
  intros Ht.
  destruct (find_duplicates_state_spec o t hashes) as (st & Hst & _ & Hc).
  exists st. split; [done|].
  assert (processed_hashes st = (classify t hashes ([], [])).2) as ->
    by by rewrite <- Hc.
  intros n h Hin. by eapply classify_covers.
Qed.

Lemma kept_set_covers_witness :
  exists st,
    find_duplicates_state reverse_order 5 [(0, 0); (1, 7); (2, 63)] = Ok st
    /\ forall n h, (n, h) ∈ [(0, 0); (1, 7); (2, 63)] ->
         exists p, p ∈ processed_hashes st /\ hamming h p <= 5.
Proof.
  apply (kept_set_covers reverse_order 5 [(0, 0); (1, 7); (2, 63)]). lia.
Defined.

(** X11. With a negative threshold (the constructor accepts one; only
    [main] checks the range) no frame is ever reported as a duplicate,
    identical frames included. *)
Theorem negative_threshold_no_duplicates (o : set_order) (t : Z)
    (hashes : list (Z * Z)) :
  t < 0 -> find_duplicates o t hashes = Ok [].
Proof.
  intros Ht. rewrite find_duplicates_classify.
  by rewrite classify_negative.
Qed.

Lemma negative_threshold_no_duplicates_witness :
  find_duplicates insertion_order (-1) [(0, 5); (1, 5); (2, 5)] = Ok [].
Proof.
  apply (negative_threshold_no_duplicates insertion_order (-1)). lia.
Defined.

(** X12. From threshold 0 up, every frame is either reported as a
    duplicate or adds one member to the kept set: the number of
    duplicates plus the size of the kept set is the number of entries. *)
Theorem duplicates_plus_kept (o : set_order) (t : Z) (hashes : list (Z * Z)) :
  0 <= t ->
  exists st,
    find_duplicates_state o t hashes = Ok st
    /\ (length (duplicates st) + length (processed_hashes st)
        = length hashes)%nat.
Proof.
  intros Ht.
  destruct (find_duplicates_state_spec o t hashes) as (st & Hst & _ & Hc).
  exists st. split; [done|].
  pose proof (classify_lengths t hashes ([], []) Ht) as Hl.
  rewrite <- Hc in Hl. cbn [fst snd length] in Hl. lia.
Qed.

Lemma duplicates_plus_kept_witness :
  exists st,
    find_duplicates_state insertion_order 2
      [(0, 7168); (1, 0); (2, 6); (3, 24)] = Ok st
    /\ Nat.add (length (duplicates st)) (length (processed_hashes st))
       = length [(0, 7168); (1, 0); (2, 6); (3, 24)].
Proof.
  apply (duplicates_plus_kept insertion_order 2). lia.
Defined.

(** X13. If every fingerprint of the input is farther than the threshold
    from every earlier one, no frame is reported as a duplicate. *)
Theorem far_apart_no_duplicates (o : set_order) (t : Z)
    (hashes : list (Z * Z)) :
  (forall i j a b, (i < j)%nat ->
     hashes !! i = Some a -> hashes !! j = Some b ->
     t < hamming b.2 a.2) ->
  find_duplicates o t hashes = Ok [].
Proof.
  intros Hfar. rewrite find_duplicates_classify.
  rewrite classify_far; [done| |].
  - intros p item Hp. by apply elem_of_nil in Hp.
  - intros l1 a l2 b l3 ->.
    apply (Hfar (length l1) (length l1 + S (length l2))%nat); [lia| |].
    + by apply list_lookup_middle.
    + rewrite lookup_app_r by lia.
      replace (length l1 + S (length l2) - length l1)%nat
        with (S (length l2)) by lia.
      cbn [lookup list_lookup]. by apply list_lookup_middle.
Qed.

Lemma far_apart_no_duplicates_witness :
  find_duplicates insertion_order 5 [(0, 0); (1, 1023); (2, 1047552)] = Ok [].
Proof.
  apply (far_apart_no_duplicates insertion_order 5).
  intros [|[|[|i]]] [|[|[|j]]] a b Hij [= <-] [= <-];
    (lia || (vm_compute; reflexivity)).
Defined.

(** X14. If every later fingerprint is within the threshold of the first
    one, every frame after the first is reported as a duplicate and the
    kept set stays the first fingerprint alone. *)
Theorem near_first_all_duplicates (o : set_order) (t n h : Z)
    (rest : list (Z * Z)) :
  Forall (fun item => hamming item.2 h <= t) rest ->
  find_duplicates o t ((n, h) :: rest) = Ok rest.*1
  /\ exists st,
       find_duplicates_state o t ((n, h) :: rest) = Ok st
       /\ processed_hashes st = [h].
Proof.
  intros Hall.
  pose proof (classify_near_first t h rest [] Hall) as Hc.
  split.
  - rewrite find_duplicates_classify, classify_first, Hc. done.
  - destruct (find_duplicates_state_spec o t ((n, h) :: rest))
      as (st & Hst & _ & Hst').
    exists st. split; [done|].
    rewrite classify_first, Hc in Hst'. by injection Hst'.
Qed.

Lemma near_first_all_duplicates_witness :
  find_duplicates insertion_order 0 ((0, 9) :: [(1, 9); (2, 9)])
  = Ok [(1, 9); (2, 9)].*1
  /\ exists st,
       find_duplicates_state insertion_order 0 ((0, 9) :: [(1, 9); (2, 9)])
       = Ok st
       /\ processed_hashes st = [9].
Proof.
  apply (near_first_all_duplicates insertion_order 0 0 9 [(1, 9); (2, 9)]).
  repeat constructor; vm_compute; discriminate.
Defined.

(** X15. With threshold 0 and 64-bit fingerprints the kept set at the
    end of a pass is exactly the set of fingerprints that occur in the
    input. *)
Theorem threshold_0_kept_set (o : set_order) (hashes : list (Z * Z)) :
  Forall is_fingerprint hashes.*2 ->
  exists st,
    find_duplicates_state o 0 hashes = Ok st
    /\ forall h, h ∈ processed_hashes st <-> h ∈ hashes.*2.
Proof.
  intros Hfp.
  destruct (find_duplicates_state_spec o 0 hashes) as (st & Hst & _ & Hc).
  exists st. split; [done|].
  assert (processed_hashes st = (classify 0 hashes ([], [])).2) as ->
    by by rewrite <- Hc.
  intros h. split.
  - intros [Hp|Hp]%classify_kept; [by apply elem_of_nil in Hp|done].
  - intros Hin.
    pose proof (classify_0_covers hashes ([], []) h Hin)
      as (p & Heq & Hp)%list_elem_of_fmap.
    assert (p ∈ hashes.*2) as Hp'.
    { apply classify_kept in Hp as [Hp|Hp]; [by apply elem_of_nil in Hp|done]. }
    assert (is_fingerprint h) as Hh by by eapply Forall_forall in Hfp.
    assert (is_fingerprint p) as Hpf by by eapply Forall_forall in Hfp.
    unfold is_fingerprint in *.
    rewrite !Z.mod_small in Heq by lia. by subst.
Qed.

Lemma threshold_0_kept_set_witness :
  exists st,
    find_duplicates_state insertion_order 0 [(0, 5); (1, 9); (2, 5)] = Ok st
    /\ forall h, h ∈ processed_hashes st <-> h ∈ [(0, 5); (1, 9); (2, 5)].*2.
Proof.
  apply (threshold_0_kept_set insertion_order [(0, 5); (1, 9); (2, 5)]).
  cbn. repeat (apply Forall_cons; split; [unfold is_fingerprint; lia|]).
  constructor.
Defined.

(** ** The bookkeeping of the detector *)

Section Bookkeeping.

Context (o : set_order) (t : Z).

Lemma detect_step_bookkeeping (seen : list (Z * Z)) (st st' : detector)
    (n h : Z) :
  detect_step o t st (n, h) = Ok st' ->
  bookkeeping t seen st ->
  bookkeeping t (seen ++ [(n, h)]) st'.
Proof.
  unfold detect_step. intros Hstep (Hlog & Hmap & Hrec).
  destruct (scan t h (iter o (processed_hashes st))) as [[p d]|] eqn:Hs.
  - pose proof (scan_Some_elem _ _ _ _ _ Hs) as (Hin & Hle & ->).
    rewrite (iter_perm o) in Hin.
    destruct (hash_to_frame st !! p) as [f|] eqn:Hf; [|discriminate].
    injection Hstep as <-. destruct (Hmap p f Hf) as [Hfp _].
    unfold bookkeeping. cbn [duplicates processed_hashes hash_to_frame
      debug_log]. split; [|split].
    + rewrite !fmap_app, Hlog. done.
    + intros q g Hq. destruct (Hmap q g Hq) as [Hg Hq'].
      split; [|done]. rewrite elem_of_app. by left.
    + intros m g e [Hold|Hnew]%elem_of_app.
      * destruct (Hrec m g e Hold) as (h' & q & H1 & H2 & H3 & H4 & H5).
        exists h', q. rewrite !elem_of_app. by repeat split; try left.
      * apply list_elem_of_singleton in Hnew as [= -> -> ->].
        exists h, p. rewrite !elem_of_app, list_elem_of_singleton.
        repeat split; (done || (by left) || by right).
  - injection Hstep as <-.
    unfold bookkeeping. cbn [duplicates processed_hashes hash_to_frame
      debug_log]. split; [done|]. split.
    + intros q g [[<- <-]|[_ Hq]]%lookup_insert_Some.
      * rewrite elem_of_app, list_elem_of_singleton, set_add_elem.
        split; [by right|by left].
      * destruct (Hmap q g Hq) as [Hg Hq'].
        rewrite elem_of_app, set_add_elem. split; [by left|by right].
    + intros m g e Hold.
      destruct (Hrec m g e Hold) as (h' & q & H1 & H2 & H3 & H4 & H5).
      exists h', q. rewrite !elem_of_app, set_add_elem.
      repeat split; (done || (by left) || by right).
Qed.

Lemma detect_loop_bookkeeping (hashes seen : list (Z * Z))
    (st st' : detector) :
  detect_loop o t hashes st = Ok st' ->
  bookkeeping t seen st ->
  bookkeeping t (seen ++ hashes) st'.
Proof.
  revert seen st. induction hashes as [|[n h] hashes IH]; intros seen st.
  - cbn. intros [= <-]. by rewrite app_nil_r.
  - cbn [detect_loop].
    destruct (detect_step o t st (n, h)) as [st1|e] eqn:Hstep; [|discriminate].
    cbn [bind]. intros Hloop Hinv.
    replace (seen ++ (n, h) :: hashes) with ((seen ++ [(n, h)]) ++ hashes)
      by by rewrite <- app_assoc.
    apply (IH _ _ Hloop). by eapply detect_step_bookkeeping.
Qed.

Lemma bookkeeping_init : bookkeeping t [] detector_init.
Proof.
  split; [done|]. split.
  - intros p f Hp. cbn in Hp. by rewrite lookup_empty in Hp.
  - intros n f d Hin. by apply elem_of_nil in Hin.
Qed.

End Bookkeeping.

(** X16. At the end of a pass the debug records are one per reported
    frame, in the order of the duplicate list, and each record names a
    reported frame, an input frame whose fingerprint is in the kept set,
    and the distance of their fingerprints, which is at most the
    threshold. *)
Theorem debug_log_records (o : set_order) (t : Z) (hashes : list (Z * Z)) :
  exists st,
    find_duplicates_state o t hashes = Ok st
    /\ (debug_log st).*1.*1 = duplicates st
    /\ forall n f d, (n, f, d) ∈ debug_log st ->
         exists h p, (n, h) ∈ hashes /\ (f, p) ∈ hashes
           /\ p ∈ processed_hashes st
           /\ d = hamming h p /\ d <= t.
Proof.
  destruct (find_duplicates_state_spec o t hashes) as (st & Hst & _ & _).
  exists st. split; [done|].
  destruct (detect_loop_bookkeeping o t hashes [] _ _ Hst (bookkeeping_init t))
    as (Hlog & _ & Hrec).
  done.
Qed.

(** X17. At the end of a pass [hash_to_frame] has a key for exactly the
    members of the kept set, and the frame it gives for a member is a
    frame of the input that has that fingerprint. *)
Theorem hash_to_frame_owners (o : set_order) (t : Z) (hashes : list (Z * Z)) :
  exists st,
    find_duplicates_state o t hashes = Ok st
    /\ (forall p, p ∈ processed_hashes st
                  <-> is_Some (hash_to_frame st !! p))
    /\ forall p f, hash_to_frame st !! p = Some f -> (f, p) ∈ hashes.
Proof.
  destruct (find_duplicates_state_spec o t hashes) as (st & Hst & Hcov & _).
  exists st. split; [done|]. split; [exact Hcov|].
  destruct (detect_loop_bookkeeping o t hashes [] _ _ Hst (bookkeeping_init t))
    as (_ & Hmap & _).
  intros p f Hp. by destruct (Hmap p f Hp).
Qed.

(** ** The run as a whole *)

Section Run.

Context {Image : Type} (phash : Image -> option Z).

Lemma extract_frames_first (interval : option Z) (frame : Image)
    (rest : list Image) :
  interval <> Some 0 ->
  exists tl, extract_frames interval (frame :: rest) = Ok ((0, frame) :: tl).
Proof.
  intros Hi. destruct interval as [i|].
  - assert (i <> 0) as Hi' by congruence.
    unfold extract_frames. rewrite extract_loop_stride by done.
    cbn [app].
    cbn [length]. rewrite Nat2Z.inj_succ, (seqZ_cons 0) by lia.
    cbn [zip zip_with]. rewrite filter_cons_True by apply Z.mod_0_l, Hi'.
    by eexists.
  - rewrite extract_frames_None.
    cbn [length]. rewrite Nat2Z.inj_succ, (seqZ_cons 0) by lia.
    cbn [zip zip_with]. by eexists.
Qed.

(** What a completed run returns, in terms of the extracted frames. *)
Lemma deduplicate_Ok_inv (o : set_order) (t : Z) (interval : option Z)
    (video : list Image) (r : report Image) :
  deduplicate o t phash interval video = Ok r ->
  exists frames dups,
    extract_frames interval video = Ok frames
    /\ frames <> []
    /\ dups = (classify t (generate_hashes phash frames) ([], [])).1
    /\ output_files r
       = filter (fun f : Z * Image => f.1 ∉ (list_to_set dups : gset Z))
           frames
    /\ total_frames r = Z.of_nat (length frames)
    /\ duplicate_frames r = Z.of_nat (length dups)
    /\ unique_frames r = Z.of_nat (length frames) - Z.of_nat (length dups).
Proof.
  unfold deduplicate.
  destruct (extract_frames interval video) as [frames|e]; [|discriminate].
  cbn [bind]. rewrite find_duplicates_classify. cbn [bind].
  unfold save_unique_frames. destruct frames as [|f0 frames]; [discriminate|].
  cbn [bind]. intros [= <-]. eexists _, _. by repeat split.
Qed.

(** The reported frames are distinct numbers of hashed frames. *)
Lemma classify_dups_frames (t : Z) (frames : list (Z * Image)) :
  let dups := (classify t (generate_hashes phash frames) ([], [])).1 in
  NoDup dups /\ forall x, x ∈ dups -> x ∈ frames.*1.
Proof.
  intros dups.
  destruct (classify_dups_sublist t (generate_hashes phash frames) ([], []))
    as (d & Hd & Hsub).
  cbn [fst app] in Hd. fold dups in Hd. subst d.
  split.
  - eapply sublist_NoDup; [|exact Hsub].
    apply fold_hash_frame_NoDup. constructor.
  - intros x Hx. eapply elem_of_sublist in Hx; [|exact Hsub].
    apply fold_hash_frame_keys in Hx as [Hx|(img & Hin & _)].
    + by apply elem_of_nil in Hx.
    + apply list_elem_of_fmap. by exists (x, img).
Qed.

(** The first frame is never among the reported ones. *)
Lemma classify_dups_not_first (t : Z) (f0 : Z * Image)
    (frames : list (Z * Image)) :
  NoDup (f0 :: frames).*1 ->
  f0.1 ∉ (classify t (generate_hashes phash (f0 :: frames)) ([], [])).1.
Proof.
  intros Hnd. unfold generate_hashes.
  rewrite fold_hash_frame_distinct by done.
  cbn [app omap list_omap].
  cbn [fmap list_fmap] in Hnd. apply NoDup_cons in Hnd as [Hf0 Hnd].
  set (hs := omap (fun f : Z * Image => (fun h => (f.1, h)) <$> phash f.2)
               frames).
  assert (forall x, x ∈ hs.*1 -> x ∈ frames.*1) as Hkeys.
  { intros x (y & -> & Hy)%list_elem_of_fmap.
    apply list_elem_of_omap in Hy as (f & Hf & Hy).
    destruct (phash f.2); [|discriminate]. injection Hy as <-.
    cbn [fst]. by apply list_elem_of_fmap_2. }
  intros Hin. apply Hf0, Hkeys.
  destruct (phash f0.2) as [h|]; cbn [fmap option_fmap option_map] in Hin.
  - rewrite classify_first in Hin.
    destruct (classify_dups_sublist t hs ([], [h])) as (d & Hd & Hsub).
    rewrite Hd in Hin. by eapply elem_of_sublist.
  - destruct (classify_dups_sublist t hs ([], [])) as (d & Hd & Hsub).
    rewrite Hd in Hin. by eapply elem_of_sublist.
Qed.

Lemma filter_not_reported_length (frames : list (Z * Image))
    (dups : list Z) :
  NoDup frames.*1 -> NoDup dups -> (forall x, x ∈ dups -> x ∈ frames.*1) ->
  (length (filter (fun f : Z * Image => f.1 ∉ (list_to_set dups : gset Z))
             frames)
   + length dups = length frames)%nat.
Proof.
  intros Hfr Hd Hsub.
  pose proof (filter_app_complement
                (fun f : Z * Image => f.1 ∉ (list_to_set dups : gset Z))
                frames) as Hperm.
  apply Permutation_length in Hperm. rewrite length_app in Hperm.
  rewrite <- Hperm. f_equal.
  rewrite <- (length_fmap fst (filter _ frames)).
  apply Permutation_length, NoDup_Permutation; [done| |].
  - eapply sublist_NoDup; [exact Hfr|]. apply fmap_sublist, sublist_filter.
  - intros x. rewrite list_elem_of_fmap. split.
    + intros Hx.
      pose proof (Hsub x Hx) as (f & Hxf & Hin)%list_elem_of_fmap.
      exists f. split; [done|]. apply list_elem_of_filter.
      split; [|done]. rewrite elem_of_list_to_set, <- Hxf. tauto.
    + intros (f & -> & [Hf _]%list_elem_of_filter).
      rewrite elem_of_list_to_set in Hf.
      by destruct (decide (f.1 ∈ dups)).
Qed.

End Run.

(** X18. A run never completes on a video with no frame, nor with
    interval 0: whenever [deduplicate] returns, the video has a first
    frame, the interval is not 0, and at least one frame was extracted. *)
Theorem deduplicate_completes_only_if {Image : Type} (o : set_order)
    (t : Z) (phash : Image -> option Z) (interval : option Z)
    (video : list Image) (r : report Image) :
  deduplicate o t phash interval video = Ok r ->
  video <> [] /\ interval <> Some 0 /\ 1 <= total_frames r.
Proof.
  intros Hrun.
  destruct video as [|frame rest]; [discriminate Hrun|].
  assert (interval <> Some 0) as Hi by (intros ->; discriminate Hrun).
  split; [done|]. split; [done|].
  apply deduplicate_Ok_inv in Hrun
    as (frames & dups & Hext & Hne & _ & _ & Htot & _).
  rewrite Htot. destruct frames; [done|]. cbn [length]. lia.
Qed.

Lemma deduplicate_completes_only_if_witness :
  [0; 7; 1] <> [] /\ @None Z <> Some 0 /\ 1 <= 3.
Proof.
  apply (deduplicate_completes_only_if insertion_order 5
           (fun img : Z => if img =? 7 then None else Some img) None
           [0; 7; 1]
           {| output_files := [(0, 0); (1, 7)]; total_frames := 3;
              duplicate_frames := 1; unique_frames := 2;
              reduction_percent := (inject_Z 1 / inject_Z 3 * 100)%Q |}).
  reflexivity.
Defined.

(** X19. When a run completes, the number of files written equals the
    reported number of unique frames, which is at least 1 and at most
    the number of extracted frames. *)
Theorem deduplicate_counts {Image : Type} (o : set_order) (t : Z)
    (phash : Image -> option Z) (interval : option Z) (video : list Image)
    (r : report Image) :
  deduplicate o t phash interval video = Ok r ->
  Z.of_nat (length (output_files r)) = unique_frames r
  /\ 1 <= unique_frames r <= total_frames r
  /\ duplicate_frames r + unique_frames r = total_frames r.
Proof.
  intros (frames & dups & Hext & Hne & Hdups & Hout & Htot & Hdup & Huni)
    %deduplicate_Ok_inv.
  pose proof (extract_frames_NoDup _ _ _ Hext) as Hnd.
  pose proof (classify_dups_frames phash t frames) as [Hd Hsub].
  rewrite <- Hdups in Hd, Hsub.
  pose proof (filter_not_reported_length frames dups Hnd Hd Hsub) as Hlen.
  rewrite <- Hout in Hlen.
  assert (1 <= length (output_files r))%nat as Hone.
  { destruct frames as [|f0 frames]; [done|].
    pose proof (classify_dups_not_first phash t f0 frames Hnd) as Hf0.
    rewrite <- Hdups in Hf0. rewrite Hout, filter_cons_True.
    - cbn [length]. lia.
    - by rewrite elem_of_list_to_set. }
  rewrite Htot, Hdup, Huni. lia.
Qed.

Lemma deduplicate_counts_witness :
  Z.of_nat (length [(0, 0); (1, 7)]) = 2
  /\ 1 <= 2 <= 3
  /\ 1 + 2 = 3.
Proof.
  apply (deduplicate_counts insertion_order 5
           (fun img : Z => if img =? 7 then None else Some img) None
           [0; 7; 1]
           {| output_files := [(0, 0); (1, 7)]; total_frames := 3;
              duplicate_frames := 1; unique_frames := 2;
              reduction_percent := (inject_Z 1 / inject_Z 3 * 100)%Q |}).
  reflexivity.
Defined.

(** X20. When a run completes, the first frame of the video is the
    first file written, whatever the threshold and whether or not it
    could be hashed. *)
Theorem deduplicate_keeps_first {Image : Type} (o : set_order) (t : Z)
    (phash : Image -> option Z) (interval : option Z) (frame : Image)
    (rest : list Image) (r : report Image) :
  deduplicate o t phash interval (frame :: rest) = Ok r ->
  exists tl, output_files r = (0, frame) :: tl.
Proof.
  intros Hrun.
  assert (interval <> Some 0) as Hi.
  { intros ->. discriminate Hrun. }
  apply deduplicate_Ok_inv in Hrun
    as (frames & dups & Hext & Hne & Hdups & Hout & _).
  destruct (extract_frames_first interval frame rest Hi) as [tl Hext'].
  rewrite Hext in Hext'. injection Hext' as ->.
  pose proof (extract_frames_NoDup _ _ _ Hext) as Hnd.
  pose proof (classify_dups_not_first phash t (0, frame) tl Hnd) as Hf0.
  rewrite <- Hdups in Hf0. rewrite Hout, filter_cons_True.
  - by eexists.
  - by rewrite elem_of_list_to_set.
Qed.

Lemma deduplicate_keeps_first_witness :
  exists tl, [(0, 0); (1, 7)] = (0, 0) :: tl.
Proof.
  apply (deduplicate_keeps_first insertion_order 5
           (fun img : Z => if img =? 7 then None else Some img) None
           0 [7; 1]
           {| output_files := [(0, 0); (1, 7)]; total_frames := 3;
              duplicate_frames := 1; unique_frames := 2;
              reduction_percent := (inject_Z 1 / inject_Z 3 * 100)%Q |}).
  reflexivity.
Defined.

(** X21. When a run completes, the files written are a subsequence of
    the video's frames paired with their indices: the file for number k
    holds the frame decoded at position k, and the files follow the
    video's order. *)
Theorem deduplicate_output_subsequence {Image : Type} (o : set_order)
    (t : Z) (phash : Image -> option Z) (interval : option Z)
    (video : list Image) (r : report Image) :
  deduplicate o t phash interval video = Ok r ->
  output_files r `sublist_of` zip (seqZ 0 (Z.of_nat (length video))) video.
Proof.
  intros (frames & dups & Hext & _ & _ & Hout & _)%deduplicate_Ok_inv.
  rewrite Hout. etrans; [apply sublist_filter|].
  by eapply extract_frames_sublist.
Qed.

Lemma deduplicate_output_subsequence_witness :
  [(0, 0); (1, 7)]
  `sublist_of` zip (seqZ 0 (Z.of_nat (length [0; 7; 1]))) [0; 7; 1].
Proof.
  apply (deduplicate_output_subsequence insertion_order 5
           (fun img : Z => if img =? 7 then None else Some img) None
           [0; 7; 1]
           {| output_files := [(0, 0); (1, 7)]; total_frames := 3;
              duplicate_frames := 1; unique_frames := 2;
              reduction_percent := (inject_Z 1 / inject_Z 3 * 100)%Q |}).
  reflexivity.
Defined.

(** X22. The outcome of a run (the files written and the statistics, or
    the exception) does not depend on the order in which the Python set
    is iterated, so it is the same under any string-hash seed. *)
Theorem deduplicate_order_independent {Image : Type} (o1 o2 : set_order)
    (t : Z) (phash : Image -> option Z) (interval : option Z)
    (video : list Image) :
  deduplicate o1 t phash interval video
  = deduplicate o2 t phash interval video
  /\ main o1 phash video interval t = main o2 phash video interval t.
Proof.
  assert (deduplicate o1 t phash interval video
          = deduplicate o2 t phash interval video) as Heq.
  { unfold deduplicate.
    destruct (extract_frames interval video) as [frames|e]; [|done].
    cbn [bind]. by rewrite !find_duplicates_classify. }
  split; [done|]. unfold main. by rewrite Heq.
Qed.

Section NothingHashed.

Context {Image : Type} (phash : Image -> option Z).

Lemma fold_hash_frame_all_fail (frames : list (Z * Image))
    (acc : list (Z * Z)) :
  Forall (fun f => phash f.2 = None) frames ->
  fold_left (hash_frame phash) frames acc = acc.
Proof.
  revert acc. induction frames as [|[n img] frames IH]; intros acc Hall;
    [done|].
  apply Forall_cons in Hall as [Hf Hall]. cbn [fold_left hash_frame].
  cbn [snd] in Hf. rewrite Hf. by apply IH.
Qed.

Lemma save_unique_frames_no_duplicates (f0 : Z * Image)
    (frames : list (Z * Image)) :
  save_unique_frames (f0 :: frames) [] = Ok (f0 :: frames).
Proof.
  unfold save_unique_frames. cbv zeta. f_equal.
  generalize (f0 :: frames). intros l.
  induction l as [|f l IH]; [done|].
  rewrite filter_cons_True; [by rewrite IH|].
  rewrite elem_of_list_to_set. apply not_elem_of_nil.
Qed.

End NothingHashed.

(** X23. If none of the extracted frames can be hashed and the run
    completes, it reports no duplicate and the files written are all the
    extracted frames. *)
Theorem deduplicate_nothing_hashed {Image : Type} (o : set_order) (t : Z)
    (phash : Image -> option Z) (interval : option Z) (video : list Image)
    (frames : list (Z * Image)) (r : report Image) :
  extract_frames interval video = Ok frames ->
  Forall (fun f => phash f.2 = None) frames ->
  deduplicate o t phash interval video = Ok r ->
  output_files r = frames
  /\ duplicate_frames r = 0
  /\ unique_frames r = Z.of_nat (length frames).
Proof.
  intros Hext Hall Hrun. unfold deduplicate in Hrun.
  rewrite Hext in Hrun. cbn [bind] in Hrun.
  unfold generate_hashes in Hrun.
  rewrite fold_hash_frame_all_fail in Hrun by done.
  cbn [find_duplicates find_duplicates_state detect_loop bind detector_init
       duplicates] in Hrun.
  destruct frames as [|f0 frames]; [discriminate Hrun|].
  rewrite save_unique_frames_no_duplicates in Hrun. cbn [bind] in Hrun.
  injection Hrun as <-.
  cbn [output_files duplicate_frames unique_frames length].
  by repeat split.
Qed.

Lemma deduplicate_nothing_hashed_witness :
  [(0, 4); (2, 6)] = [(0, 4); (2, 6)]
  /\ 0 = 0
  /\ 2 = Z.of_nat (length [(0, 4); (2, 6)]).
Proof.
  apply (deduplicate_nothing_hashed insertion_order 5 (fun _ : Z => None)
           (Some 2) [4; 5; 6] [(0, 4); (2, 6)]
           {| output_files := [(0, 4); (2, 6)]; total_frames := 2;
              duplicate_frames := 0; unique_frames := 2;
              reduction_percent := (inject_Z 0 / inject_Z 2 * 100)%Q |}).
  - reflexivity.
  - repeat constructor.
  - reflexivity.
Defined.

(** ** File names *)

Section FileNames.

Lemma append_cons (c : ascii) (s u : string) :
  String c s +:+ u = String c (s +:+ u).
Proof. reflexivity. Qed.

Lemma append_nil (u : string) : "" +:+ u = u.
Proof. reflexivity. Qed.

Lemma append_length (s u : string) :
  String.length (s +:+ u) = (String.length s + String.length u)%nat.
Proof.
  induction s as [|c s IH]; [done|].
  rewrite append_cons. cbn [String.length]. by rewrite IH.
Qed.

Lemma append_inv_tail (s1 s2 u : string) :
  s1 +:+ u = s2 +:+ u -> s1 = s2.
Proof.
  revert s2.
  induction s1 as [|c s1 IH]; intros [|c2 s2];
    rewrite ?append_cons, ?append_nil; [done| | |].
  - intros H. apply (f_equal String.length) in H.
    cbn [String.length] in H. rewrite append_length in H. lia.
  - intros H. apply (f_equal String.length) in H.
    cbn [String.length] in H. rewrite append_length in H. lia.
  - intros [= -> H]. f_equal. by apply IH.
Qed.

(** Reading a zero-filled digit string back gives the number the digits
    denote. *)
Lemma zero_fill_value (k : nat) (s : string) :
  option_map Z.of_uint (DecimalString.NilEmpty.uint_of_string (zero_fill k s))
  = option_map Z.of_uint (DecimalString.NilEmpty.uint_of_string s).
Proof.
  induction k as [|k IH]; [done|].
  cbn [zero_fill DecimalString.NilEmpty.uint_of_string]. rewrite <- IH.
  by destruct (DecimalString.NilEmpty.uint_of_string (zero_fill k s)).
Qed.

Lemma format_06d_value (n : Z) :
  0 <= n ->
  option_map Z.of_uint
    (DecimalString.NilEmpty.uint_of_string (format_06d n)) = Some n.
Proof.
  intros Hn. unfold format_06d.
  destruct n as [|p|p]; [done| |lia].
  cbn [Z.to_int]. cbv zeta.
  rewrite zero_fill_value, DecimalString.NilEmpty.usu. cbn [option_map].
  unfold Z.of_uint. by rewrite DecimalPos.Unsigned.of_to.
Qed.

Lemma format_06d_inj (a b : Z) :
  0 <= a -> 0 <= b -> format_06d a = format_06d b -> a = b.
Proof.
  intros Ha Hb Heq.
  pose proof (format_06d_value a Ha) as Hva.
  rewrite Heq, (format_06d_value b Hb) in Hva. congruence.
Qed.

Lemma frame_file_name_inj (a b : Z) :
  0 <= a -> 0 <= b -> frame_file_name a = frame_file_name b -> a = b.
Proof.
  intros Ha Hb. unfold frame_file_name. rewrite !append_cons, !append_nil.
  intros [= H]. by apply append_inv_tail, format_06d_inj in H.
Qed.

Lemma unique_frame_file_name_inj (a b : Z) :
  0 <= a -> 0 <= b ->
  unique_frame_file_name a = unique_frame_file_name b -> a = b.
Proof.
  intros Ha Hb. unfold unique_frame_file_name.
  rewrite !append_cons, !append_nil.
  intros [= H]. by apply append_inv_tail, format_06d_inj in H.
Qed.

End FileNames.

(** X24. Distinct non-negative frame numbers (the only ones
    [extract_frames] hands out) get distinct file names, both in the
    temporary directory and in the output directory, so no frame's file
    is overwritten by another's. *)
Theorem file_names_injective (a b : Z) :
  0 <= a -> 0 <= b ->
  (frame_file_name a = frame_file_name b -> a = b)
  /\ (unique_frame_file_name a = unique_frame_file_name b -> a = b).
Proof.
  intros Ha Hb. split.
  - by apply frame_file_name_inj.
  - by apply unique_frame_file_name_inj.
Qed.

Lemma file_names_injective_witness :
  (frame_file_name 7 = frame_file_name 1234567 -> 7 = 1234567)
  /\ (unique_frame_file_name 7 = unique_frame_file_name 1234567
      -> 7 = 1234567).
Proof. apply (file_names_injective 7 1234567); lia. Defined.

Lemma extract_frames_numbers_nonneg {Image : Type} (interval : option Z)
    (video : list Image) (frames : list (Z * Image)) :
  extract_frames interval video = Ok frames ->
  forall n, n ∈ frames.*1 -> 0 <= n.
Proof.
  intros Hext n ([m img] & -> & Hin)%list_elem_of_fmap.
  eapply elem_of_sublist in Hin; [|by eapply extract_frames_sublist].
  apply elem_of_zip_l, elem_of_seqZ in Hin. cbn [fst]. lia.
Qed.

Lemma NoDup_names (name : Z -> string) (l : list Z) :
  (forall a b, 0 <= a -> 0 <= b -> name a = name b -> a = b) ->
  (forall n, n ∈ l -> 0 <= n) ->
  NoDup l -> NoDup (name <$> l).
Proof.
  intros Hinj Hpos Hnd. apply NoDup_fmap_2_strong; [|done].
  intros a b Ha Hb. apply Hinj; by apply Hpos.
Qed.

(** X25. The temporary files of one extraction all have different
    names: no extracted frame overwrites another before hashing. *)
Theorem extract_frames_file_names_distinct {Image : Type}
    (interval : option Z) (video : list Image) (frames : list (Z * Image)) :
  extract_frames interval video = Ok frames ->
  NoDup (frame_file_name <$> frames.*1).
Proof.
  intros Hext. apply NoDup_names.
  - apply frame_file_name_inj.
  - by eapply extract_frames_numbers_nonneg.
  - by eapply extract_frames_NoDup.
Qed.

Lemma extract_frames_file_names_distinct_witness :
  NoDup (frame_file_name <$> [(0, 10); (2, 12); (4, 14)].*1).
Proof.
  apply (extract_frames_file_names_distinct (Some 2) [10; 11; 12; 13; 14]).
  reflexivity.
Defined.

(** X26. When a run completes, the files written to the output
    directory all have different names: every kept frame ends up in a
    file of its own. *)
Theorem deduplicate_output_names_distinct {Image : Type} (o : set_order)
    (t : Z) (phash : Image -> option Z) (interval : option Z)
    (video : list Image) (r : report Image) :
  deduplicate o t phash interval video = Ok r ->
  NoDup (unique_frame_file_name <$> (output_files r).*1).
Proof.
  intros (frames & dups & Hext & _ & _ & Hout & _)%deduplicate_Ok_inv.
  assert ((output_files r).*1 `sublist_of` frames.*1) as Hsub.
  { rewrite Hout. apply fmap_sublist, sublist_filter. }
  apply NoDup_names.
  - apply unique_frame_file_name_inj.
  - intros n Hn. eapply extract_frames_numbers_nonneg; [exact Hext|].
    by eapply elem_of_sublist.
  - eapply sublist_NoDup; [|exact Hsub]. by eapply extract_frames_NoDup.
Qed.

Lemma deduplicate_output_names_distinct_witness :
  NoDup (unique_frame_file_name <$> [(0, 0); (1, 7)].*1).
Proof.
  apply (deduplicate_output_names_distinct insertion_order 5
           (fun img : Z => if img =? 7 then None else Some img) None
           [0; 7; 1]
           {| output_files := [(0, 0); (1, 7)]; total_frames := 3;
              duplicate_frames := 1; unique_frames := 2;
              reduction_percent := (inject_Z 1 / inject_Z 3 * 100)%Q |}).
  reflexivity.
Defined.
